(** * Fox-culling schedule optimisation on a Lotka-Volterra model

    A shallow embedding of [examples/lotka.py]: the objective function
    [fitness], its schedule decoder, the event-driven simulation loop, the
    scoring loop and the book-keeping of the process-shared best value and
    evaluation counter.

    Numeric conventions.  Python floats are modelled as exact rationals
    ([Q]); rounding is not modelled.  The properties of the schedule are
    therefore kept to what rounding preserves: its order is stated as
    non-strict order, and nothing is concluded from two event times being
    different, nor from the exact values of the parameters [a], [b], [c]
    and [d].  Python integers that take part in float arithmetic ([year],
    [len(X)], [t0]) are injected into [Q].  The shared counter [evals] is
    a C [int]: it is a [Z] whose 32-bit wrap-around is written out.  The
    scipy integrator is an external collaborator and appears as an
    interface ([Integrator]). *)

From Stdlib Require Import ZArith QArith List Lia Lqa Bool Sorted.
Import ListNotations.
Open Scope Q_scope.

(** ** Python primitives used by the source *)

(** [x > y] on floats. *)
Definition Qgtb (x y : Q) : bool := negb (Qle_bool x y).

(** [x < y] on floats. *)
Definition Qltb (x y : Q) : bool := Qgtb y x.

(** Python's two-argument [max(a, b)]: the first argument is kept unless the
    second is strictly greater. *)
Definition pymax (a b : Q) : Q := if Qgtb b a then b else a.

(** A Python [int] used in float arithmetic. *)
Definition Qnat (n : nat) : Q := inject_Z (Z.of_nat n).

(** ** Module globals (lines 17-29) *)

Definition a : Q := 1.
Definition b : Q := 1 # 10.
Definition c : Q := 3 # 2.
Definition d : Q := b * (3 # 4).

(** A population [[x, y]]: [x] rabbits and [y] foxes. *)
Definition population : Type := (Q * Q)%type.

Definition rabbits (p : population) : Q := fst p.
Definition foxes (p : population) : Q := snd p.

Definition pop0 : population := (10, 5).
Definition dim : nat := 20.

(** [Bounds([-1]*dim, [1]*dim)]. *)
Definition bounds : list Q * list Q := (repeat (-1) dim, repeat 1 dim).

(** A value lies within the bounds of its coordinate. *)
Definition in_bounds (x : Q) : Prop := -1 <= x /\ x <= 1.

(** The literal [1E99]. *)
Definition big : Q := inject_Z (10 ^ 99).

(** [lotkavolterra(t, pop, a, b, c, d)] (lines 33-35). *)
Definition lotkavolterra (t : Q) (pop : population) (a b c d : Q) : population :=
  let '(x, y) := pop in
  (a * x - b * x * y, - c * y + d * x * y).

(** ** The schedule decoder (lines 52-59) *)

Definition t0 : Q := 0.

(** The loop [for year, x in enumerate(X)] with its accumulator [ts]. *)
Fixpoint decode_loop (year : nat) (X : list Q) (ts : list Q) : list Q :=
  match X with
  | [] => ts
  | x :: X' =>
      decode_loop (S year) X'
        (if Qgtb x 0 then ts ++ [t0 + Qnat year + x] else ts)
  end.

(** Lines 52-59: the list [ts] when the decoding loop is left and the end
    time [t1 = len(X)] has been appended. *)
Definition decode (X : list Q) : list Q :=
  let t1 := Qnat (length X) in
  decode_loop 0 X [] ++ [t1].

(** The schedule as the specification words it: the times [i + X[i]] of the
    indices with [X[i] > 0], in index order, then the terminal time. *)
Definition schedule_spec (X : list Q) : list Q :=
  map (fun ix => Qnat (fst ix) + snd ix)
      (filter (fun ix => Qgtb (snd ix) 0) (combine (seq 0 (length X)) X))
  ++ [Qnat (length X)].

(** Number of strictly positive entries. *)
Definition count_positive (X : list Q) : nat :=
  length (filter (fun x => Qgtb x 0) X).

(** The events of the slots [year, year+1, ...], by recursion on the vector
    (an auxiliary view of [decode_loop], see [decode_loop_events]). *)
Fixpoint events_from (year : nat) (X : list Q) : list Q :=
  match X with
  | [] => []
  | x :: X' =>
      if Qgtb x 0 then (t0 + Qnat year + x) :: events_from (S year) X'
      else events_from (S year) X'
  end.

(** ** The integrator interface (lines 9, 37-48)

    [scipy.integrate.ode] is external to the repository.  An instance of
    the interface gives the state of an [ode] object and the methods the
    source calls.  [ode_integrate I t] is [I.integrate(t)]: it yields the
    advanced object and the returned population, or [None] when the call
    raises an exception. *)

Definition vector_field : Type :=
  Q -> population -> Q -> Q -> Q -> Q -> population.

Class Integrator : Type := {
  ode : Type;
  ode_new : vector_field -> ode;
  set_integrator : ode -> nat -> Q -> Q -> ode;
  set_f_params : ode -> Q -> Q -> Q -> Q -> ode;
  set_initial_value : ode -> population -> Q -> ode;
  ode_integrate : ode -> Q -> option (ode * population)
}.

(** A loop whose body may raise: the first exception leaves the loop. *)
Fixpoint for_each {S A : Type} (body : S -> A -> option S) (s : S)
    (l : list A) : option S :=
  match l with
  | [] => Some s
  | x :: l' =>
      match body s x with
      | None => None
      | Some s' => for_each body s' l'
      end
  end.

(** [np.linspace(start, stop, num)] for [num >= 2]: [num] points,
    [arange(0, num) * step + start] with [step = (stop - start) / (num - 1)]. *)
Definition linspace (start stop : Q) (num : nat) : list Q :=
  let step := (stop - start) / Qnat (num - 1) in
  map (fun k => Qnat k * step + start) (seq 0 num).

(** What the simulation did to the population, in order: a propagation to
    time [t] that returned [y], or the discrete transition at time [t] that
    turned [pre] into [post].  The trace is a ghost of the model: no value
    computed by the program depends on it. *)
Inductive op : Type :=
| Propagate (t : Q) (y : population)
| Transition (t : Q) (pre post : population).

Definition is_transition (o : op) : bool :=
  match o with Transition _ _ _ => true | Propagate _ _ => false end.

Definition op_time (o : op) : Q :=
  match o with Transition t _ _ => t | Propagate t _ => t end.

(** The line-67 update of a population: [pop[1] = max(1, pop[1]-1)]. *)
Definition kill_fox (pop : population) : population :=
  (rabbits pop, pymax 1 (foxes pop - 1)).

Section Simulation.
Context {IG : Integrator}.

(** [integrator()] (lines 37-43). *)
Definition integrator : ode :=
  let I := ode_new lotkavolterra in
  let I := set_integrator I 1000 (1 # 1000000) (1 # 1000000) in
  set_f_params I a b c d.

(** [integrate(I, t)] (lines 45-48); the warnings filter changes no value. *)
Definition integrate (I : ode) (t : Q) : option (ode * population) :=
  ode_integrate I t.

(** The local state of [fitness] while it simulates: the integrator [I],
    the variable [pop], and the ghost trace. *)
Record sim : Type := {
  sim_I : ode;
  sim_pop : population;
  sim_trace : list op
}.

(** The body of [for i in range(len(ts))] (lines 63-68). *)
Definition event_step (ts : list Q) (s : sim) (i : nat) : option sim :=
  match integrate (sim_I s) (nth i ts 0) with
  | None => None
  | Some (I', pop) =>
      let tr := sim_trace s ++ [Propagate (nth i ts 0) pop] in
      if (i <? length ts - 1)%nat then
        let pop' := kill_fox pop in
        Some {| sim_I := set_initial_value I' pop' (nth i ts 0);
                sim_pop := pop';
                sim_trace := tr ++ [Transition (nth i ts 0) pop pop'] |}
      else
        Some {| sim_I := I'; sim_pop := pop; sim_trace := tr |}
  end.

(** Lines 60-68: the integrator is created and seeded with [pop0] at
    [t0], then the event loop runs over the indices of [ts]. *)
Definition event_loop (ts : list Q) : option sim :=
  let I := set_initial_value integrator pop0 t0 in
  for_each (event_step ts)
    {| sim_I := I; sim_pop := pop0; sim_trace := [] |}
    (seq 0 (length ts)).

(** The body of [for t in np.linspace(...)] (lines 73-74); the second
    component is [max_rabbits]. *)
Definition sample_step (s : sim * Q) (t : Q) : option (sim * Q) :=
  match integrate (sim_I (fst s)) t with
  | None => None
  | Some (I', pop) =>
      Some ({| sim_I := I'; sim_pop := pop;
               sim_trace := sim_trace (fst s) ++ [Propagate t pop] |},
            pymax (snd s) (rabbits pop))
  end.

(** Lines 71-74, from the state the event loop left. *)
Definition sample_loop (s : sim) (t1 : Q) : option (sim * Q) :=
  for_each sample_step (s, 0) (linspace t1 (t1 + 5) 50).

(** Lines 52-75: the value computed for [X], with the final local state;
    [None] when a call of the integrator raised. *)
Definition fitness_value (X : list Q) : option (Q * sim) :=
  let t1 := Qnat (length X) in
  let ts := decode X in
  match event_loop ts with
  | None => None
  | Some s =>
      match sample_loop s t1 with
      | None => None
      | Some (s', max_rabbits) => Some (- max_rabbits, s')
      end
  end.
End Simulation.

(** ** Shared progress state and book-keeping (lines 26-29, 76-82) *)

(** The record that line 80 logs; the elapsed time and the rounding of the
    printed numbers are not modelled. *)
Record log_record : Type := {
  log_nfev : Z;
  log_fval : Q;
  log_fox_kill_at : list Q;
  log_x : list Q
}.

(** [bval] is a shared C [double], [evals] a shared C [int]; [log] is what
    the logger has received. *)
Record shared : Type := {
  bval : Q;
  evals : Z;
  log : list log_record
}.

(** The module initialises [bval = 1E99] and [evals = 0]. *)
Definition shared_init : shared :=
  {| bval := big; evals := 0%Z; log := [] |}.

(** Storing a Python integer into a C [int] keeps its low 32 bits, signed. *)
Definition wrap32 (z : Z) : Z := ((z + 2 ^ 31) mod 2 ^ 32 - 2 ^ 31)%Z.

(** Lines 77-81, executed without interruption. *)
Definition bookkeeping (X ts : list Q) (value : Q) (s : shared) : shared :=
  let evals1 := wrap32 (evals s + 1) in
  if Qltb value (bval s) && Qltb value big then
    {| bval := value;
       evals := evals1;
       log := log s ++ [{| log_nfev := evals1; log_fval := value;
                           log_fox_kill_at := removelast ts;
                           log_x := X |}] |}
  else
    {| bval := bval s; evals := evals1; log := log s |}.

(** [fitness(X)] on the shared state: the returned value ([None] when an
    exception leaves the function) and the shared state afterwards.  An
    exception can only come from the integrator, before line 77. *)
Definition fitness {IG : Integrator} (X : list Q) (s : shared)
    : option Q * shared :=
  match fitness_value X with
  | None => (None, s)
  | Some (value, _) => (Some value, bookkeeping X (decode X) value s)
  end.

(** A sequence of calls, one after the other; the values returned, in call
    order. *)
Fixpoint run_calls {IG : Integrator} (Xs : list (list Q)) (s : shared)
    : list (option Q) * shared :=
  match Xs with
  | [] => ([], s)
  | X :: Xs' =>
      let '(r, s1) := fitness X s in
      let '(rs, s2) := run_calls Xs' s1 in
      (r :: rs, s2)
  end.

(** ** Concrete integrators *)

(** Zero-order hold: the population does not move between events. *)
Definition hold_integrator : Integrator := {|
  ode := population * Q;
  ode_new := fun _ => ((0, 0), 0);
  set_integrator := fun I _ _ _ => I;
  set_f_params := fun I _ _ _ _ => I;
  set_initial_value := fun _ y t => (y, t);
  ode_integrate := fun I t => Some ((fst I, t), fst I)
|}.

(** One explicit Euler step per call. *)
Record euler_ode : Type := {
  eu_f : vector_field;
  eu_params : Q * Q * Q * Q;
  eu_y : population;
  eu_t : Q
}.

Definition euler_step (I : euler_ode) (t : Q) : population :=
  let '(pa, pb, pc, pd) := eu_params I in
  let dy := eu_f I (eu_t I) (eu_y I) pa pb pc pd in
  let h := t - eu_t I in
  (Qred (rabbits (eu_y I) + h * rabbits dy),
   Qred (foxes (eu_y I) + h * foxes dy)).

Definition euler_integrator : Integrator := {|
  ode := euler_ode;
  ode_new := fun f =>
    {| eu_f := f; eu_params := (0, 0, 0, 0); eu_y := (0, 0); eu_t := 0 |};
  set_integrator := fun I _ _ _ => I;
  set_f_params := fun I pa pb pc pd =>
    {| eu_f := eu_f I; eu_params := (pa, pb, pc, pd);
       eu_y := eu_y I; eu_t := eu_t I |};
  set_initial_value := fun I y t =>
    {| eu_f := eu_f I; eu_params := eu_params I; eu_y := y; eu_t := t |};
  ode_integrate := fun I t =>
    let y := euler_step I t in
    Some ({| eu_f := eu_f I; eu_params := eu_params I; eu_y := y; eu_t := t |},
          y)
|}.

(** An integrator whose [integrate] always raises. *)
Definition raising_integrator : Integrator := {|
  ode := unit;
  ode_new := fun _ => tt;
  set_integrator := fun I _ _ _ => I;
  set_f_params := fun I _ _ _ _ => I;
  set_initial_value := fun I _ _ => I;
  ode_integrate := fun _ _ => None
|}.

(** ** Auxiliary views used by the proofs *)

(** The event loop by recursion on the schedule that is still ahead (see
    [event_loop_run]). *)
Fixpoint run_schedule {IG : Integrator} (s : sim) (ts : list Q) : option sim :=
  match ts with
  | [] => Some s
  | t :: ts' =>
      match integrate (sim_I s) t with
      | None => None
      | Some (I', pop) =>
          let tr := sim_trace s ++ [Propagate t pop] in
          match ts' with
          | [] => Some {| sim_I := I'; sim_pop := pop; sim_trace := tr |}
          | _ :: _ =>
              run_schedule
                {| sim_I := set_initial_value I' (kill_fox pop) t;
                   sim_pop := kill_fox pop;
                   sim_trace := tr ++ [Transition t pop (kill_fox pop)] |}
                ts'
          end
      end
  end.

(** The operations an event loop over [ts] performs, without the
    populations: [(false, t)] is a propagation to [t], [(true, t)] a
    transition at [t]. *)
Fixpoint event_shape (ts : list Q) : list (bool * Q) :=
  match ts with
  | [] => []
  | [t] => [(false, t)]
  | t :: ts' => (false, t) :: (true, t) :: event_shape ts'
  end.

Definition op_shape (o : op) : bool * Q := (is_transition o, op_time o).

(** The populations that the propagations of a trace returned. *)
Definition propagated (tr : list op) : list population :=
  flat_map (fun o => match o with
                     | Propagate _ y => [y]
                     | Transition _ _ _ => []
                     end) tr.

(** What holds of a transition of the trace: the rabbits are untouched and
    the foxes become [max(1, y - 1)]. *)
Definition transition_ok (o : op) : Prop :=
  match o with
  | Propagate _ _ => True
  | Transition _ pre post =>
      rabbits post = rabbits pre /\
      foxes post = pymax 1 (foxes pre - 1) /\
      1 <= foxes post /\
      (foxes pre == 1 -> foxes post == 1) /\
      (2 <= foxes pre -> foxes post == foxes pre - 1)
  end.


(** Scenario A of the source's main block: [[-0.5]*dim]. *)
Definition scenario_A : list Q := repeat (- (1 # 2)) dim.

(** Six years with a cull in the middle of each. *)
Definition six_culls : list Q := repeat (1 # 2) 6.

(** The populations seen by the last fifty propagations of a trace: for the
    trace of a completed evaluation, the samples of the scoring loop (see
    [fitness_value_samples]). *)
Definition samples (tr : list op) : list population :=
  skipn (length (propagated tr) - 50) (propagated tr).

(** ** Views of a sequence of calls *)

(** The values of the calls that returned. *)
Definition returned (rs : list (option Q)) : list Q :=
  flat_map (fun r => match r with Some v => [v] | None => [] end) rs.

(** The returned values below the rejection threshold [1E99]. *)
Definition accepted (rs : list (option Q)) : list Q :=
  filter (fun v => Qltb v big) (returned rs).

(** The update of lines 78-79 seen on the best value alone. *)
Definition best_update (bv v : Q) : Q :=
  if Qltb v bv && Qltb v big then v else bv.

(** [m] is the least element of [l]. *)
Definition is_min (m : Q) (l : list Q) : Prop :=
  In m l /\ Forall (fun x => m <= x) l.

(** The range of a C [int]. *)
Definition in_int32 (z : Z) : Prop := (- 2 ^ 31 <= z < 2 ^ 31)%Z.

(** ** Calls that overlap in time

    [bval] and [evals] are [multiprocessing.RawValue]s: shared memory
    without a lock.  Seen from the shared state, a call of [fitness] first
    computes its value (lines 52-75 touch nothing shared) and then goes
    through lines 77-81 one access at a time; [evals.value += 1] is a load
    followed by a store. *)

Inductive pc : Type :=
| AtLoad               (* line 77, before evals.value is read *)
| AtStore (tmp : Z)    (* line 77, tmp read, tmp + 1 not yet stored *)
| AtTest               (* line 78 *)
| AtSetBest            (* line 79 *)
| AtLog                (* line 80 *)
| AtReturn.            (* line 82 *)

Record call : Type := {
  call_X : list Q;
  call_value : Q;
  call_pc : pc
}.

Definition at_pc (c : call) (p : pc) : call :=
  {| call_X := call_X c; call_value := call_value c; call_pc := p |}.

(** The calls that reach line 77, with the values they computed. *)
Definition begin_calls {IG : Integrator} (Xs : list (list Q)) : list call :=
  flat_map (fun X => match fitness_value X with
                     | Some (value, _) =>
                         [{| call_X := X; call_value := value; call_pc := AtLoad |}]
                     | None => []
                     end) Xs.

(** One access of a call to the shared state. *)
Definition call_step (c : call) (s : shared) : call * shared :=
  match call_pc c with
  | AtLoad => (at_pc c (AtStore (evals s)), s)
  | AtStore tmp =>
      (at_pc c AtTest,
       {| bval := bval s; evals := wrap32 (tmp + 1); log := log s |})
  | AtTest =>
      if Qltb (call_value c) (bval s) && Qltb (call_value c) big
      then (at_pc c AtSetBest, s)
      else (at_pc c AtReturn, s)
  | AtSetBest =>
      (at_pc c AtLog,
       {| bval := call_value c; evals := evals s; log := log s |})
  | AtLog =>
      (at_pc c AtReturn,
       {| bval := bval s; evals := evals s;
          log := log s ++ [{| log_nfev := evals s;
                              log_fval := call_value c;
                              log_fox_kill_at := removelast (decode (call_X c));
                              log_x := call_X c |}] |})
  | AtReturn => (c, s)
  end.

(** [l] with its element of index [i] replaced. *)
Fixpoint set_nth {A : Type} (i : nat) (x : A) (l : list A) : list A :=
  match l, i with
  | [], _ => []
  | _ :: l', O => x :: l'
  | y :: l', S i' => y :: set_nth i' x l'
  end.

(** The calls [cs] run under the schedule [sched]: each entry names the
    call that makes the next access. *)
Fixpoint interleave (sched : list nat) (cs : list call) (s : shared)
    : list call * shared :=
  match sched with
  | [] => (cs, s)
  | i :: sched' =>
      match nth_error cs i with
      | None => interleave sched' cs s
      | Some c =>
          let '(c', s') := call_step c s in
          interleave sched' (set_nth i c' cs) s'
      end
  end.

(** The schedule under which [n] calls run one after the other: five
    accesses of call 0, then five of call 1, and so on. *)
Definition sequential (n : nat) : list nat :=
  flat_map (fun i => repeat i 5) (seq 0 n).

(** Lines 77-81 of the call [c], executed without interruption. *)
Definition book_call (s : shared) (c : call) : shared :=
  bookkeeping (call_X c) (decode (call_X c)) (call_value c) s.

(** ** The objects [fitness] can reach

    A second, finer embedding of [fitness]: lists and arrays are objects of
    a heap and variables hold references, so that an assignment through a
    variable ([pop[1] = ...]) shows on every name of the object.  The
    caller's vector and the module's [pop0] are objects; each array the
    integrator returns is a fresh one ([set_initial_value] copies a list
    into an array of the integrator's own and keeps an array as it is). *)

Inductive ref : Type :=
| Ref_X                 (* the list the caller passes *)
| Ref_pop0              (* the module's pop0 *)
| Ref_array (n : nat).  (* the n-th array that the integrator made *)

Definition ref_eqb (r1 r2 : ref) : bool :=
  match r1, r2 with
  | Ref_X, Ref_X => true
  | Ref_pop0, Ref_pop0 => true
  | Ref_array n, Ref_array m => Nat.eqb n m
  | _, _ => false
  end.

Record heap : Type := {
  objects : ref -> list Q;
  next_array : nat
}.

(** The reference is to an object that exists in the heap. *)
Definition allocated (h : heap) (r : ref) : Prop :=
  match r with
  | Ref_array n => (n < next_array h)%nat
  | _ => True
  end.

Definition alloc (h : heap) (l : list Q) : ref * heap :=
  (Ref_array (next_array h),
   {| objects := fun r => if ref_eqb r (Ref_array (next_array h)) then l
                          else objects h r;
      next_array := S (next_array h) |}).

(** [obj[i]]; an index out of range raises. *)
Definition get_item (h : heap) (r : ref) (i : nat) : option Q :=
  nth_error (objects h r) i.

(** [obj[i] = v]; an index out of range raises. *)
Definition set_item (h : heap) (r : ref) (i : nat) (v : Q) : option heap :=
  if (i <? length (objects h r))%nat then
    Some {| objects := fun r' => if ref_eqb r' r then set_nth i v (objects h r)
                                 else objects h r';
            next_array := next_array h |}
  else None.

(** The unpacking [x, y = pop] of a two-item object. *)
Definition to_population (l : list Q) : population := (nth 0 l 0, nth 1 l 0).

(** Everything a call can reach: the heap, the module's floats and bounds,
    the shared values. *)
Record world : Type := {
  w_heap : heap;
  w_a : Q;
  w_b : Q;
  w_c : Q;
  w_d : Q;
  w_bounds : list Q * list Q;
  w_shared : shared
}.

Notation "x <- e ;; k" :=
  (match e with Some x => k | None => None end)
  (at level 61, e at next level, right associativity).

Section Objects.
Context {IG : Integrator}.

(** The local variables [I] and [pop] of a call, and the heap. *)
Record locals : Type := {
  l_I : ode;
  l_pop : ref;
  l_heap : heap
}.

(** [integrate(I, t)]: the population comes in an array of its own. *)
Definition integrate_obj (I : ode) (t : Q) (h : heap)
    : option (ode * (ref * heap)) :=
  r <- integrate I t ;;
  Some (fst r, alloc h [rabbits (snd r); foxes (snd r)]).

(** Lines 63-68 on objects. *)
Definition event_step_obj (ts : list Q) (s : locals) (i : nat)
    : option locals :=
  r <- integrate_obj (l_I s) (nth i ts 0) (l_heap s) ;;
  let I' := fst r in
  let pop := fst (snd r) in
  let h := snd (snd r) in
  if (i <? length ts - 1)%nat then
    y <- get_item h pop 1 ;;
    h' <- set_item h pop 1 (pymax 1 (y - 1)) ;;
    Some {| l_I := set_initial_value I' (to_population (objects h' pop))
                     (nth i ts 0);
            l_pop := pop;
            l_heap := h' |}
  else
    Some {| l_I := I'; l_pop := pop; l_heap := h |}.

(** Lines 73-74 on objects. *)
Definition sample_step_obj (s : locals * Q) (t : Q) : option (locals * Q) :=
  r <- integrate_obj (l_I (fst s)) t (l_heap (fst s)) ;;
  let pop := fst (snd r) in
  let h := snd (snd r) in
  x <- get_item h pop 0 ;;
  Some ({| l_I := fst r; l_pop := pop; l_heap := h |}, pymax (snd s) x).

(** Lines 52-75 on objects: the value and the heap afterwards. *)
Definition fitness_value_obj (w : world) : option (Q * heap) :=
  let h := w_heap w in
  let t1 := Qnat (length (objects h Ref_X)) in
  let pop := Ref_pop0 in
  let ts := decode (objects h Ref_X) in
  let I := ode_new lotkavolterra in
  let I := set_integrator I 1000 (1 # 1000000) (1 # 1000000) in
  let I := set_f_params I (w_a w) (w_b w) (w_c w) (w_d w) in
  let I := set_initial_value I (to_population (objects h pop)) t0 in
  s <- for_each (event_step_obj ts)
         {| l_I := I; l_pop := pop; l_heap := h |} (seq 0 (length ts)) ;;
  r <- for_each sample_step_obj (s, 0) (linspace t1 (t1 + 5) 50) ;;
  Some (- snd r, l_heap (fst r)).

(** [fitness(X)] on objects. *)
Definition fitness_obj (w : world) : option Q * world :=
  match fitness_value_obj w with
  | None => (None, w)
  | Some (value, h) =>
      (Some value,
       {| w_heap := h;
          w_a := w_a w; w_b := w_b w; w_c := w_c w; w_d := w_d w;
          w_bounds := w_bounds w;
          w_shared := bookkeeping (objects h Ref_X)
                        (decode (objects (w_heap w) Ref_X)) value (w_shared w) |})
  end.
End Objects.

(** The world of the module when [fitness] is called with the vector [X]
    and the shared state [s]. *)
Definition world_of (X : list Q) (s : shared) : world :=
  {| w_heap := {| objects := fun r => match r with
                                      | Ref_X => X
                                      | Ref_pop0 => [10; 5]
                                      | Ref_array _ => []
                                      end;
                  next_array := 0 |};
     w_a := a; w_b := b; w_c := c; w_d := d;
     w_bounds := bounds;
     w_shared := s |}.

(** [h] extends [h0]: the objects of [h0] are in [h] as they were. *)
Definition extends (h0 h : heap) : Prop :=
  (next_array h0 <= next_array h)%nat /\
  forall r, allocated h0 r -> objects h r = objects h0 r.

(** Two computations that may raise agree: both raise, or both return and
    the results are related. *)
Definition option_rel {A B : Type} (R : A -> B -> Prop)
    (x : option A) (y : option B) : Prop :=
  match x, y with
  | Some u, Some v => R u v
  | None, None => True
  | _, _ => False
  end.

(** The locals of the object-level call and of the value-level call hold
    the same integrator and the same population. *)
Definition same_locals {IG : Integrator} (ls : locals) (s : sim) : Prop :=
  l_I ls = sim_I s /\
  objects (l_heap ls) (l_pop ls) = [rabbits (sim_pop s); foxes (sim_pop s)].

(** ** Further views of the source *)

(** Two vectors ask for the same culls: at every index the entries are the
    same, or neither is positive ([X[i] < 0 means: no fox killing this
    year], line 24). *)
Definition same_culls (X Y : list Q) : Prop :=
  Forall2 (fun x y => x = y \/ (x <= 0 /\ y <= 0)) X Y.


(** The times the integrator was asked to reach, in call order. *)
Definition propagation_times (tr : list op) : list Q :=
  map op_time (filter (fun o => negb (is_transition o)) tr).

(** The log is a record of strict improvements that ends at [bval]. *)
Definition log_improving (s : shared) : Prop :=
  StronglySorted (fun r1 r2 => log_fval r2 < log_fval r1) (log s) /\
  bval s = last (map log_fval (log s)) big /\
  Forall (fun r => bval s <= log_fval r /\ log_fval r < big) (log s).

(** The call has stored its increment of [evals]. *)
Definition past_store (c : call) : bool :=
  match call_pc c with
  | AtLoad | AtStore _ => false
  | _ => true
  end.

(** The main block (lines 100-107). *)

Definition scenario_B : list Q := repeat 0.5 dim.

Definition solution : list Q :=
  [0.776493606911633; 5.313367199186114e-11; -0.01911689944376108;
   0.999999999998243; 0.9999999999999777; 0.8778065780316634;
   -0.9677096355465782; 0.9877828448885166; 0.21691071881497626;
   -0.1944392073928476; 1.0; 0.7622846184132999;
   -2.0391328917626546e-06; -0.22780030500674903; -0.6537913248006114;
   0.8517517878859682; 1.774349183498689e-16; 1.0; 1.0;
   0.1509101207001727].

(** [bval.value = v]. *)
Definition set_bval (s : shared) (v : Q) : shared :=
  {| bval := v; evals := evals s; log := log s |}.

(** Lines 103-107: [bval] is lowered to [-1E99], the three demonstration
    vectors are evaluated and printed, and [bval] is set back to [1E99].
    An exception ends the script where it is raised. *)
Definition main_demo {IG : Integrator} (s : shared)
    : option (list Q) * shared :=
  let s0 := set_bval s (- big) in
  match fitness scenario_A s0 with
  | (None, s1) => (None, s1)
  | (Some v1, s1) =>
      match fitness scenario_B s1 with
      | (None, s2) => (None, s2)
      | (Some v2, s2) =>
          match fitness solution s2 with
          | (None, s3) => (None, s3)
          | (Some v3, s3) => (Some [v1; v2; v3], set_bval s3 big)
          end
      end
  end.

(** The number of calls that have stored their increment. *)
Definition stored (cs : list call) : Z :=
  Z.of_nat (length (filter past_store cs)).

(** A call that has loaded [evals] and not yet stored holds a value that
    is at most [n]. *)
Definition pending_ok (n : Z) (c : call) : Prop :=
  match call_pc c with
  | AtStore tmp => (0 <= tmp <= n)%Z
  | _ => True
  end.

(** What every interleaving keeps, from [evals = 0]: the counter is at most
    the number of increments stored, and at least one once there is one. *)
Definition counter_inv (cs : list call) (s : shared) : Prop :=
  (0 <= evals s <= stored cs)%Z /\
  (0 < stored cs -> 1 <= evals s)%Z /\
  Forall (pending_ok (stored cs)) cs.

(** ** The event loop round by round, and propagation alone *)

(** Lines 60-68 with [range(k)] in place of [range(len(ts))]: the locals
    when [k] rounds of the event loop are done.  The event loop is
    [event_prefix ts (len(ts))] (see [event_loop_prefix]). *)
Definition event_prefix {IG : Integrator} (ts : list Q) (k : nat)
    : option sim :=
  let I := set_initial_value integrator pop0 t0 in
  for_each (event_step ts)
    {| sim_I := I; sim_pop := pop0; sim_trace := [] |}
    (seq 0 k).



(** An integrator under which the foxes stay and the rabbits grow at the
    constant rate [6 - foxes]: the fewer foxes, the more rabbits. *)
Definition drift_integrator : Integrator := {|
  ode := population * Q;
  ode_new := fun _ => ((0, 0), 0);
  set_integrator := fun I _ _ _ => I;
  set_f_params := fun I _ _ _ _ => I;
  set_initial_value := fun _ y t => (y, t);
  ode_integrate := fun I t =>
    let y := (Qred (rabbits (fst I) + (t - snd I) * (6 - foxes (fst I))),
              foxes (fst I)) in
    Some ((y, t), y)
|}.

(** * Properties *)

(** ** Basic facts on the primitives *)

Lemma Qgtb_true (x y : Q) : Qgtb x y = true <-> y < x.
Proof.
  unfold Qgtb. rewrite negb_true_iff. split; intro H.
  - apply Qnot_le_lt. intro Hle. apply Qle_bool_iff in Hle. congruence.
  - destruct (Qle_bool x y) eqn:E; [|reflexivity].
    apply Qle_bool_iff in E. apply Qle_not_lt in E. contradiction.
Qed.

Lemma Qgtb_false (x y : Q) : Qgtb x y = false <-> x <= y.
Proof.
  unfold Qgtb. rewrite negb_false_iff. apply Qle_bool_iff.
Qed.

Lemma Qnat_S (n : nat) : Qnat (S n) == Qnat n + 1.
Proof.
  unfold Qnat. rewrite Nat2Z.inj_succ. unfold Z.succ.
  rewrite inject_Z_plus. reflexivity.
Qed.

Lemma Qnat_nonneg (n : nat) : 0 <= Qnat n.
Proof.
  unfold Qnat. change 0 with (inject_Z 0). rewrite <- Zle_Qle. lia.
Qed.

Lemma Qnat_le (n m : nat) : (n <= m)%nat -> Qnat n <= Qnat m.
Proof.
  intro H. unfold Qnat. rewrite <- Zle_Qle. lia.
Qed.

Lemma pymax_ge_l (x y : Q) : x <= pymax x y.
Proof.
  unfold pymax. destruct (Qgtb y x) eqn:E.
  - apply Qgtb_true in E. lra.
  - lra.
Qed.

Lemma pymax_ge_r (x y : Q) : y <= pymax x y.
Proof.
  unfold pymax. destruct (Qgtb y x) eqn:E.
  - lra.
  - apply Qgtb_false in E. exact E.
Qed.

Lemma pymax_cases (x y : Q) : pymax x y = x \/ pymax x y = y.
Proof.
  unfold pymax. destruct (Qgtb y x); auto.
Qed.

(** ** The decoder against its specification *)

Lemma decode_loop_events (X : list Q) :
  forall year ts, decode_loop year X ts = ts ++ events_from year X.
Proof.
  induction X as [|x X' IH]; intros year ts; simpl.
  - now rewrite app_nil_r.
  - rewrite IH. destruct (Qgtb x 0); [|reflexivity].
    now rewrite <- app_assoc.
Qed.

Lemma decode_events (X : list Q) :
  decode X = events_from 0 X ++ [Qnat (length X)].
Proof.
  unfold decode. now rewrite decode_loop_events.
Qed.

Lemma events_from_spec (X : list Q) :
  forall year,
    Forall2 Qeq (events_from year X)
      (map (fun ix => Qnat (fst ix) + snd ix)
         (filter (fun ix => Qgtb (snd ix) 0) (combine (seq year (length X)) X))).
Proof.
  induction X as [|x X' IH]; intro year; simpl.
  - constructor.
  - destruct (Qgtb x 0); simpl.
    + constructor; [unfold t0; lra | apply IH].
    + apply IH.
Qed.

Lemma events_from_length (X : list Q) :
  forall year, length (events_from year X) = count_positive X.
Proof.
  unfold count_positive.
  induction X as [|x X' IH]; intro year; simpl; [reflexivity|].
  destruct (Qgtb x 0); simpl; now rewrite IH.
Qed.

Lemma events_from_nonpositive (X : list Q) :
  forall year, Forall (fun x => x <= 0) X -> events_from year X = [].
Proof.
  induction X as [|x X' IH]; intros year H; simpl; [reflexivity|].
  inversion H as [|? ? Hx HX']; subst.
  apply Qgtb_false in Hx. rewrite Hx. now apply IH.
Qed.

Lemma Forall2_Qeq_refl (l : list Q) : Forall2 Qeq l l.
Proof. induction l; constructor; [reflexivity | assumption]. Qed.

Lemma Forall2_app_same {A} (R : A -> A -> Prop) l1 l2 l :
  (forall x, R x x) -> Forall2 R l1 l2 -> Forall2 R (l1 ++ l) (l2 ++ l).
Proof.
  intros HR H. induction H; simpl.
  - induction l; constructor; auto.
  - constructor; assumption.
Qed.

(** C4. The decoded schedule is the list of the times [i + X[i]] of the
    indices [i] with [X[i] > 0], in index order, followed by the terminal
    time [len(X)]; its length is the number of strictly positive entries
    plus one; and when no entry is positive it is the terminal time
    alone. *)
Theorem decode_schedule (X : list Q) :
  Forall2 Qeq (decode X) (schedule_spec X) /\
  length (decode X) = S (count_positive X) /\
  (Forall (fun x => x <= 0) X -> decode X = [Qnat (length X)]).
Proof.
  rewrite decode_events. repeat split.
  - unfold schedule_spec. apply Forall2_app_same; [reflexivity|].
    apply events_from_spec.
  - rewrite length_app, events_from_length. simpl. lia.
  - intro H. now rewrite events_from_nonpositive.
Qed.

Example decode_example :
  decode [1 # 2; - (1 # 4); 0; 1] = [0 + 0 + (1 # 2); 0 + 3 + 1; 4].
Proof. reflexivity. Qed.

(** The terminal-only case of [decode_schedule] at a vector of four
    non-positive entries. *)
Lemma decode_schedule_witness :
  decode [- (1 # 2); 0; -1; - (1 # 3)] = [Qnat 4].
Proof.
  apply (decode_schedule [- (1 # 2); 0; -1; - (1 # 3)]).
  repeat constructor; unfold Qle; simpl; lia.
Defined.

(** ** Ordering of the schedule *)

(** The ordering facts below are the ones that a monotone rounding of the
    additions of line 58 keeps: an event of slot [year] lies in
    [[year, year + 1]].  Strict order of the schedule holds of exact
    addition only ([1 + 1e-17] is [1.0] as a double) and is not stated. *)

Lemma events_from_lower (X : list Q) :
  forall year, Forall (fun t => Qnat year <= t) (events_from year X).
Proof.
  induction X as [|x X' IH]; intro year; simpl; [constructor|].
  assert (Hnext : Forall (fun t => Qnat year <= t) (events_from (S year) X')).
  { eapply Forall_impl; [|apply IH]. intros t Ht.
    pose proof (Qnat_S year). simpl in Ht. lra. }
  destruct (Qgtb x 0) eqn:E; [|assumption].
  apply Qgtb_true in E. constructor; [unfold t0; lra | assumption].
Qed.

Lemma events_from_upper (X : list Q) :
  forall year, Forall (fun x => x <= 1) X ->
    Forall (fun t => t <= Qnat (year + length X)) (events_from year X).
Proof.
  induction X as [|x X' IH]; intros year H; simpl; [constructor|].
  inversion H as [|? ? Hx HX']; subst.
  rewrite Nat.add_succ_r.
  destruct (Qgtb x 0).
  - constructor; [|apply (IH (S year) HX')].
    pose proof (Qnat_S (year + length X')).
    pose proof (Qnat_le year (year + length X') ltac:(lia)).
    unfold t0. lra.
  - apply (IH (S year) HX').
Qed.

Lemma events_from_sorted (X : list Q) :
  forall year, Forall (fun x => x <= 1) X ->
    StronglySorted Qle (events_from year X).
Proof.
  induction X as [|x X' IH]; intros year H; simpl; [constructor|].
  inversion H as [|? ? Hx HX']; subst.
  destruct (Qgtb x 0); [|apply (IH (S year) HX')].
  constructor; [apply (IH (S year) HX')|].
  eapply Forall_impl; [|apply (events_from_lower X' (S year))].
  intros t Ht. simpl in Ht. pose proof (Qnat_S year). unfold t0. lra.
Qed.

Lemma StronglySorted_snoc {A} (R : A -> A -> Prop) (l : list A) (x : A) :
  StronglySorted R l -> Forall (fun y => R y x) l ->
  StronglySorted R (l ++ [x]).
Proof.
  induction 1 as [|y l Hl IH Hy]; intro Hx; simpl.
  - repeat constructor.
  - inversion Hx; subst. constructor; [now apply IH|].
    apply Forall_app; split; [assumption | now repeat constructor].
Qed.

Lemma Forall_in_bounds_upper (X : list Q) :
  Forall in_bounds X -> Forall (fun x => x <= 1) X.
Proof.
  apply Forall_impl. intros x [_ H]. exact H.
Qed.

(** C1 (as the code has it).  For a vector within the bounds [[-1, 1]] the
    decoded schedule is non-decreasing and its last element is the horizon
    end [len(X)].  (Two entries of the schedule can be equal: see
    [decode_not_strictly_increasing].) *)
Theorem decode_sorted (X : list Q) :
  Forall in_bounds X ->
  Sorted Qle (decode X) /\
  last (decode X) 0 = Qnat (length X).
Proof.
  intro HX. apply Forall_in_bounds_upper in HX.
  rewrite decode_events. split.
  - apply StronglySorted_Sorted, StronglySorted_snoc.
    + apply (events_from_sorted X 0%nat HX).
    + apply (events_from_upper X 0%nat HX).
  - apply last_last.
Qed.

(** [decode_sorted] at a three-year vector with two culls. *)
Lemma decode_sorted_witness :
  Sorted Qle (decode [1; - (1 # 2); 1 # 3]) /\
  last (decode [1; - (1 # 2); 1 # 3]) 0 = Qnat 3.
Proof.
  apply (decode_sorted [1; - (1 # 2); 1 # 3]).
  repeat constructor; unfold Qle; simpl; lia.
Defined.

Lemma one_in_bounds : Forall in_bounds [1].
Proof. repeat constructor; unfold Qle; simpl; lia. Qed.

Lemma schedule_of_one_unsorted : ~ Sorted Qlt (decode [1]).
Proof.
  intro H. inversion H as [|? ? _ Hd]; subst.
  inversion Hd as [|? ? Hlt]; subst.
  revert Hlt. unfold Qlt. simpl. lia.
Qed.

(** C1 (as stated) fails: the one-year vector [[1]] lies within the bounds,
    and its schedule is [[1; 1]], which is not strictly increasing. *)
Lemma decode_not_strictly_increasing :
  Forall in_bounds [1] /\
  decode [1] = [0 + 0 + 1; 1] /\
  ~ Sorted Qlt (decode [1]).
Proof.
  split; [apply one_in_bounds|].
  split; [reflexivity | apply schedule_of_one_unsorted].
Qed.

(** ** The event loop *)

Lemma kill_fox_ok (t : Q) (pop : population) :
  transition_ok (Transition t pop (kill_fox pop)).
Proof.
  unfold transition_ok, kill_fox, rabbits, foxes. cbn [fst snd].
  repeat split.
  - apply pymax_ge_l.
  - intro H. unfold pymax. destruct (Qgtb (snd pop - 1) 1) eqn:E.
    + apply Qgtb_true in E. lra.
    + reflexivity.
  - intro H. unfold pymax. destruct (Qgtb (snd pop - 1) 1) eqn:E.
    + reflexivity.
    + apply Qgtb_false in E. lra.
Qed.

Section EventLoop.
Context {IG : Integrator}.

Lemma event_loop_suffix (pre suf : list Q) :
  forall s,
    for_each (event_step (pre ++ suf)) s (seq (length pre) (length suf))
    = run_schedule s suf.
Proof.
  revert pre. induction suf as [|t suf' IH]; intros pre s; [reflexivity|].
  cbn [length seq for_each run_schedule]. unfold event_step at 1.
  rewrite nth_middle.
  destruct (integrate (sim_I s) t) as [[I' pop]|]; [|reflexivity].
  assert (Hpre : pre ++ t :: suf' = (pre ++ [t]) ++ suf')
    by now rewrite <- app_assoc.
  assert (Hlen : S (length pre) = length (pre ++ [t]))
    by (rewrite length_app; simpl; lia).
  destruct suf' as [|t' suf''].
  - replace (length pre <? length (pre ++ [t]) - 1)%nat with false
      by (symmetry; apply Nat.ltb_ge; rewrite length_app; simpl; lia).
    reflexivity.
  - replace (length pre <? length (pre ++ t :: t' :: suf'') - 1)%nat with true
      by (symmetry; apply Nat.ltb_lt; rewrite length_app; simpl; lia).
    rewrite Hpre, Hlen. apply IH.
Qed.

(** The index loop of the source is the recursion on the schedule. *)
Lemma event_loop_run (ts : list Q) :
  event_loop ts =
  run_schedule {| sim_I := set_initial_value integrator pop0 t0;
                  sim_pop := pop0; sim_trace := [] |} ts.
Proof.
  unfold event_loop. apply (event_loop_suffix [] ts).
Qed.

Lemma run_schedule_trace (ts : list Q) :
  forall s s',
    run_schedule s ts = Some s' ->
    exists tr,
      sim_trace s' = sim_trace s ++ tr /\
      map op_shape tr = event_shape ts /\
      Forall transition_ok tr /\
      (ts <> [] -> exists tr' y,
          tr = tr' ++ [Propagate (last ts 0) y] /\ sim_pop s' = y).
Proof.
  induction ts as [|t ts' IH]; intros s s' H.
  - inversion H; subst. exists []. rewrite app_nil_r.
    repeat split; [constructor | congruence].
  - cbn [run_schedule] in H.
    destruct (integrate (sim_I s) t) as [[I' pop]|]; [|discriminate].
    destruct ts' as [|t' ts''].
    + inversion H; subst. cbn [sim_trace sim_pop].
      exists [Propagate t pop]. repeat split.
      * repeat constructor.
      * intros _. exists [], pop. split; reflexivity.
    + apply IH in H. destruct H as (tr & Htr & Hshape & Hok & Hlast).
      cbn [sim_trace] in Htr.
      exists (Propagate t pop :: Transition t pop (kill_fox pop) :: tr).
      repeat split.
      * rewrite Htr, <- !app_assoc. reflexivity.
      * cbn [map event_shape]. unfold op_shape at 1 2. cbn.
        now rewrite Hshape.
      * constructor; [exact I|]. constructor; [apply kill_fox_ok | exact Hok].
      * intros _. destruct (Hlast ltac:(discriminate)) as (tr' & y & E & Hy).
        exists (Propagate t pop :: Transition t pop (kill_fox pop) :: tr'), y.
        split; [|exact Hy]. rewrite E. reflexivity.
Qed.
End EventLoop.

Lemma event_shape_transitions (ts : list Q) :
  map snd (filter fst (event_shape ts)) = removelast ts.
Proof.
  induction ts as [|t ts' IH]; [reflexivity|].
  destruct ts' as [|t' ts'']; [reflexivity|].
  change (event_shape (t :: t' :: ts''))
    with ((false, t) :: (true, t) :: event_shape (t' :: ts'')).
  cbn [filter fst map snd]. rewrite IH. reflexivity.
Qed.

Lemma transitions_of_shape (tr : list op) :
  map op_time (filter is_transition tr)
  = map snd (filter fst (map op_shape tr)).
Proof.
  induction tr as [|o tr IH]; [reflexivity|].
  cbn [map filter]. unfold op_shape at 1. cbn [fst].
  destruct (is_transition o); cbn [map snd]; now rewrite IH.
Qed.

(** ** The scoring loop *)

Lemma fold_pymax_spec (l : list Q) :
  forall m,
    m <= fold_left pymax l m /\
    Forall (fun x => x <= fold_left pymax l m) l /\
    (fold_left pymax l m = m \/ In (fold_left pymax l m) l).
Proof.
  induction l as [|x l IH]; intro m; cbn [fold_left].
  - repeat split; [lra | constructor | now left].
  - destruct (IH (pymax m x)) as (Hge & Hall & Hin).
    pose proof (pymax_ge_l m x). pose proof (pymax_ge_r m x).
    repeat split.
    + lra.
    + constructor; [lra | exact Hall].
    + destruct Hin as [E|Hin]; [|right; now right].
      rewrite E. destruct (pymax_cases m x) as [E'|E']; rewrite E'.
      * now left.
      * right; now left.
Qed.



Lemma linspace_length (start stop : Q) (num : nat) :
  length (linspace start stop num) = num.
Proof.
  unfold linspace. now rewrite length_map, length_seq.
Qed.



Section Scoring.
Context {IG : Integrator}.

Lemma sample_loop_trace (ts : list Q) :
  forall s m s' m',
    for_each sample_step (s, m) ts = Some (s', m') ->
    exists ys,
      length ys = length ts /\
      sim_trace s' = sim_trace s
                     ++ map (fun ty => Propagate (fst ty) (snd ty)) (combine ts ys) /\
      m' = fold_left pymax (map rabbits ys) m.
Proof.
  induction ts as [|t ts' IH]; intros s m s' m' H.
  - inversion H; subst. exists []. cbn. now rewrite app_nil_r.
  - cbn [for_each] in H. unfold sample_step at 1 in H. cbn [fst snd] in H.
    destruct (integrate (sim_I s) t) as [[I' pop]|]; [|discriminate].
    apply IH in H. destruct H as (ys & Hlen & Htr & Hm).
    exists (pop :: ys). cbn [sim_trace] in Htr. repeat split.
    + simpl. now rewrite Hlen.
    + rewrite Htr, <- app_assoc. reflexivity.
    + exact Hm.
Qed.

(** What a completed evaluation did: the event loop, then fifty
    propagations along the sampling grid; the value is the negated
    [max_rabbits]. *)
Lemma fitness_value_inv (X : list Q) (v : Q) (s' : sim) :
  fitness_value X = Some (v, s') ->
  exists s ys,
    event_loop (decode X) = Some s /\
    length ys = 50%nat /\
    sim_trace s' = sim_trace s
      ++ map (fun ty => Propagate (fst ty) (snd ty))
           (combine (linspace (Qnat (length X)) (Qnat (length X) + 5) 50) ys) /\
    v = - fold_left pymax (map rabbits ys) 0.
Proof.
  unfold fitness_value, sample_loop. intro H.
  destruct (event_loop (decode X)) as [s|]; [|discriminate].
  destruct (for_each sample_step (s, 0) _) as [[s1 m]|] eqn:E; [|discriminate].
  inversion H; subst. apply sample_loop_trace in E.
  destruct E as (ys & Hlen & Htr & Hm).
  exists s, ys. rewrite linspace_length in Hlen. subst m.
  split; [reflexivity|]. split; [exact Hlen|]. split; [exact Htr|reflexivity].
Qed.

Lemma fitness_value_nonpositive (X : list Q) (v : Q) (s' : sim) :
  fitness_value X = Some (v, s') -> v <= 0.
Proof.
  intro H. apply fitness_value_inv in H.
  destruct H as (s & ys & _ & _ & _ & Hv). subst v.
  destruct (fold_pymax_spec (map rabbits ys) 0) as (Hge & _). lra.
Qed.
End Scoring.


(** ** Transitions of an evaluation *)

Section Transitions.
Context {IG : Integrator}.

Lemma event_loop_trace (X : list Q) (s : sim) :
  event_loop (decode X) = Some s ->
  map op_shape (sim_trace s) = event_shape (decode X) /\
  Forall transition_ok (sim_trace s) /\
  exists tr y,
    sim_trace s = tr ++ [Propagate (Qnat (length X)) y] /\ sim_pop s = y.
Proof.
  rewrite event_loop_run. intro H. apply run_schedule_trace in H.
  destruct H as (tr & Htr & Hshape & Hok & Hlast).
  cbn [sim_trace app] in Htr. subst tr. repeat split; try assumption.
  destruct Hlast as (tr' & y & E & Hy).
  { rewrite decode_events. now destruct (events_from 0 X). }
  exists tr', y. split; [|exact Hy].
  rewrite E. unfold decode at 1. now rewrite last_last.
Qed.

Lemma sampling_no_transition (w : list Q) (ys : list population) :
  filter is_transition
    (map (fun ty => Propagate (fst ty) (snd ty)) (combine w ys)) = [].
Proof.
  induction (combine w ys) as [|ty l IH]; [reflexivity | exact IH].
Qed.

Lemma sampling_transition_ok (w : list Q) (ys : list population) :
  Forall transition_ok
    (map (fun ty => Propagate (fst ty) (snd ty)) (combine w ys)).
Proof.
  induction (combine w ys) as [|ty l IH]; constructor; [exact I | exact IH].
Qed.

(** The transitions of a completed evaluation happen at the entries of the
    schedule but the last. *)
Lemma transition_times (X : list Q) (v : Q) (s' : sim) :
  fitness_value X = Some (v, s') ->
  map op_time (filter is_transition (sim_trace s')) = removelast (decode X).
Proof.
  intro H. apply fitness_value_inv in H.
  destruct H as (s & ys & Hev & _ & Htr & _).
  apply event_loop_trace in Hev. destruct Hev as (Hshape & _ & _).
  rewrite Htr, filter_app, sampling_no_transition, app_nil_r.
  rewrite transitions_of_shape, Hshape. apply event_shape_transitions.
Qed.

Lemma for_each_app {S A : Type} (body : S -> A -> option S) (l1 l2 : list A) :
  forall s,
    for_each body s (l1 ++ l2)
    = match for_each body s l1 with
      | Some s1 => for_each body s1 l2
      | None => None
      end.
Proof.
  induction l1 as [|x l1 IH]; intro s; cbn [app for_each]; [reflexivity|].
  destruct (body s x); [apply IH | reflexivity].
Qed.

(** The event loop is its own prefix of [len(ts)] rounds. *)
Lemma event_loop_prefix (ts : list Q) :
  event_loop ts = event_prefix ts (length ts).
Proof. reflexivity. Qed.

(** Round [k] starts from the locals that [k] rounds left. *)
Lemma event_prefix_S (ts : list Q) (k : nat) :
  event_prefix ts (S k)
  = match event_prefix ts k with
    | Some s => event_step ts s k
    | None => None
    end.
Proof.
  unfold event_prefix. rewrite seq_S, for_each_app. cbn [Nat.add].
  destruct (for_each _ _ (seq 0 k)) as [s|]; [|reflexivity].
  cbn [for_each]. now destruct (event_step ts s k).
Qed.

(** A round that is not the last: the population that [integrate] returned
    has its foxes replaced, and the integrator is seeded with the result. *)
Lemma event_prefix_cull (ts : list Q) (k : nat) (s' : sim) :
  (k < length ts - 1)%nat ->
  event_prefix ts (S k) = Some s' ->
  exists s I' y,
    event_prefix ts k = Some s /\
    integrate (sim_I s) (nth k ts 0) = Some (I', y) /\
    sim_pop s' = kill_fox y /\
    sim_I s' = set_initial_value I' (kill_fox y) (nth k ts 0) /\
    sim_trace s' = sim_trace s ++ [Propagate (nth k ts 0) y;
                                   Transition (nth k ts 0) y (kill_fox y)].
Proof.
  intros Hk H. rewrite event_prefix_S in H.
  destruct (event_prefix ts k) as [s|]; [|discriminate].
  unfold event_step in H.
  destruct (integrate (sim_I s) (nth k ts 0)) as [[I' y]|] eqn:E;
    [|discriminate].
  apply Nat.ltb_lt in Hk. rewrite Hk in H. inversion H; subst s'.
  exists s, I', y. cbn [sim_pop sim_I sim_trace].
  rewrite <- app_assoc. now repeat split.
Qed.


(** A completed event loop went through every round. *)
Lemma event_prefix_reached (ts : list Q) (s' : sim) :
  event_loop ts = Some s' ->
  forall k, (k <= length ts)%nat -> exists s, event_prefix ts k = Some s.
Proof.
  rewrite event_loop_prefix. intro H.
  assert (Hdown : forall j, exists s,
             event_prefix ts (length ts - j) = Some s).
  { induction j as [|j [s Hs]]; [rewrite Nat.sub_0_r; eauto|].
    destruct (Nat.le_gt_cases (length ts) j) as [Hle|Hgt].
    - exists s. rewrite <- Hs. f_equal. lia.
    - replace (length ts - j)%nat with (S (length ts - S j)) in Hs by lia.
      rewrite event_prefix_S in Hs.
      destruct (event_prefix ts (length ts - S j)) as [s0|];
        [eauto | discriminate]. }
  intros k Hk. destruct (Hdown (length ts - k)%nat) as [s Hs].
  exists s. rewrite <- Hs. f_equal. lia.
Qed.



Lemma propagated_app (tr1 tr2 : list op) :
  propagated (tr1 ++ tr2) = propagated tr1 ++ propagated tr2.
Proof. unfold propagated. apply flat_map_app. Qed.

Lemma propagated_sampling (w : list Q) :
  forall ys, length ys = length w ->
    propagated (map (fun ty => Propagate (fst ty) (snd ty)) (combine w ys)) = ys.
Proof.
  induction w as [|t w IH]; intros [|y ys] H; try discriminate; [reflexivity|].
  cbn. f_equal. apply IH. now inversion H.
Qed.

Lemma fitness_value_samples (X : list Q) (v : Q) (s' : sim) :
  fitness_value X = Some (v, s') ->
  exists s,
    event_loop (decode X) = Some s /\
    length (samples (sim_trace s')) = 50%nat /\
    sim_trace s' = sim_trace s
      ++ map (fun ty => Propagate (fst ty) (snd ty))
           (combine (linspace (Qnat (length X)) (Qnat (length X) + 5) 50)
              (samples (sim_trace s'))) /\
    v = - fold_left pymax (map rabbits (samples (sim_trace s'))) 0.
Proof.
  intro H. apply fitness_value_inv in H.
  destruct H as (s & ys & Hev & Hlen & Htr & Hv).
  assert (E : samples (sim_trace s') = ys).
  { unfold samples. rewrite Htr, propagated_app, propagated_sampling
      by now rewrite linspace_length.
    rewrite length_app, Hlen, Nat.add_sub, skipn_app, skipn_all, Nat.sub_diag.
    reflexivity. }
  exists s. rewrite E. now repeat split.
Qed.





(** C9 (as the code has it).  In scenario A no entry is positive: the
    schedule is the terminal time alone, the evaluation makes no
    transition, and the value returned, the negated [max_rabbits], is not
    positive. *)
Theorem scenario_A_value (v : Q) (s' : sim) :
  fitness_value scenario_A = Some (v, s') ->
  decode scenario_A = [Qnat 20] /\
  filter is_transition (sim_trace s') = [] /\
  v <= 0.
Proof.
  intro H. pose proof (fitness_value_nonpositive _ _ _ H) as Hle.
  pose proof (transition_times _ _ _ H) as Htimes.
  split; [reflexivity|]. split; [|exact Hle].
  change (removelast (decode scenario_A)) with (@nil Q) in Htimes.
  destruct (filter is_transition (sim_trace s')); [reflexivity|discriminate].
Qed.
End Transitions.

(** ** The theorems above at concrete evaluations *)

Example two_culls_foxes :
  option_map (fun r => map foxes (propagated (sim_trace (snd r)))) 
    (@fitness_value hold_integrator [1 # 2; 1 # 2])
  = Some (5 :: 4 :: repeat 3 51).
Proof. vm_compute. reflexivity. Qed.

(** Six culls under the zero-order hold: the foxes go from 5 down to 1 and
    stay there. *)
Example six_culls_floor :
  option_map
    (fun r => flat_map (fun o => match o with
                                 | Transition _ pre post => [(foxes pre, foxes post)]
                                 | Propagate _ _ => []
                                 end) (sim_trace (snd r)))
    (@fitness_value hold_integrator six_culls)
  = Some [(5, 4); (4, 3); (3, 2); (2, 1); (1, 1); (1, 1)].
Proof. vm_compute. reflexivity. Qed.






(** [scenario_A_value] under the zero-order hold. *)
Lemma scenario_A_value_witness :
  exists s',
    @fitness_value hold_integrator scenario_A = Some (- (10), s') /\
    decode scenario_A = [Qnat 20] /\
    filter is_transition (sim_trace s') = [] /\
    - (10) <= 0.
Proof.
  eexists. split.
  - vm_compute. reflexivity.
  - apply (@scenario_A_value hold_integrator). vm_compute. reflexivity.
Defined.

(** C9 (as stated) fails: whatever the integrator and the shared state,
    the value returned for scenario A is not positive. *)
Lemma scenario_A_not_positive :
  ~ exists (IG : Integrator) (s s' : shared) (v : Q),
      fitness scenario_A s = (Some v, s') /\ 0 < v.
Proof.
  intros (IG & s & s' & v & H & Hpos). unfold fitness in H.
  destruct (fitness_value scenario_A) as [[v' sm]|] eqn:E; [|discriminate].
  inversion H; subst. apply fitness_value_nonpositive in E. lra.
Qed.

(** ** Error handling *)

Lemma for_each_total {S A : Type} (body : S -> A -> option S) :
  (forall s x, body s x <> None) ->
  forall l s, for_each body s l <> None.
Proof.
  intros Hb l. induction l as [|x l IH]; intro s; cbn [for_each].
  - discriminate.
  - destruct (body s x) as [s1|] eqn:E; [apply IH | now apply Hb in E].
Qed.

Lemma big_positive : 0 < big.
Proof. unfold big, Qlt. vm_compute. reflexivity. Qed.

Lemma Qltb_true (x y : Q) : Qltb x y = true <-> x < y.
Proof. unfold Qltb. apply Qgtb_true. Qed.

Lemma Qltb_false (x y : Q) : Qltb x y = false <-> y <= x.
Proof. unfold Qltb. apply Qgtb_false. Qed.

Lemma bookkeeping_evals (X ts : list Q) (v : Q) (s : shared) :
  evals (bookkeeping X ts v s) = wrap32 (evals s + 1).
Proof.
  unfold bookkeeping. now destruct (Qltb v (bval s) && Qltb v big).
Qed.

Lemma bookkeeping_bval (X ts : list Q) (v : Q) (s : shared) :
  bval (bookkeeping X ts v s) = best_update (bval s) v.
Proof.
  unfold bookkeeping, best_update.
  now destruct (Qltb v (bval s) && Qltb v big).
Qed.

Section ErrorHandling.
Context {IG : Integrator}.

Lemma fitness_value_total (X : list Q) :
  (forall I t, ode_integrate I t <> None) -> fitness_value X <> None.
Proof.
  intro Htot. unfold fitness_value, event_loop, sample_loop.
  destruct (for_each (event_step (decode X)) _ _) as [s|] eqn:E.
  - destruct (for_each sample_step (s, 0) _) as [[s1 m]|] eqn:E1;
      [discriminate|].
    exfalso. revert E1. apply for_each_total. intros [s2 m2] t.
    unfold sample_step, integrate. cbn [fst snd].
    destruct (ode_integrate (sim_I s2) t) as [[I' pop]|] eqn:E2;
      [discriminate | now apply Htot in E2].
  - exfalso. revert E. apply for_each_total. intros s2 i.
    unfold event_step, integrate.
    destruct (ode_integrate (sim_I s2) (nth i (decode X) 0)) as [[I' pop]|] eqn:E2;
      [|now apply Htot in E2].
    destruct (i <? length (decode X) - 1)%nat; discriminate.
Qed.

(** C2 (as the code has it).  [fitness] validates nothing and catches
    nothing.  A call that returns, whatever the decoded schedule, returns
    the negated [max_rabbits]: a value that is not positive, hence below
    the threshold [1E99] and eligible to become [bval]; [evals] is
    incremented once (as a C int) and [bval] becomes the value when the
    value is lower.  When the integrator raises, the exception leaves
    [fitness] and the shared state is as it was.  [fitness] raises nothing
    of its own: with an integrator that never raises, it returns. *)
Theorem fitness_no_rejection (X : list Q) (s : shared) :
  match fitness X s with
  | (Some v, s') =>
      v <= 0 /\ v < big /\
      evals s' = wrap32 (evals s + 1) /\
      (v < bval s -> bval s' = v)
  | (None, s') => s' = s /\ fitness_value X = None
  end /\
  ((forall I t, ode_integrate I t <> None) -> fst (fitness X s) <> None).
Proof.
  unfold fitness. split.
  - destruct (fitness_value X) as [[v sm]|] eqn:E; [|now split].
    pose proof (fitness_value_nonpositive _ _ _ E) as Hle.
    pose proof big_positive as Hbig.
    split; [exact Hle|]. split; [lra|].
    split; [apply bookkeeping_evals|].
    intro Hlt. rewrite bookkeeping_bval. unfold best_update.
    replace (Qltb v (bval s)) with true by (symmetry; now apply Qltb_true).
    replace (Qltb v big) with true by (symmetry; apply Qltb_true; lra).
    reflexivity.
  - intro Htot. pose proof (fitness_value_total X Htot) as Hne.
    destruct (fitness_value X) as [[v sm]|]; [discriminate | contradiction].
Qed.
End ErrorHandling.

(** [fitness_no_rejection] under the zero-order hold, which never raises. *)
Lemma fitness_no_rejection_witness :
  fst (@fitness hold_integrator [1] shared_init) <> None.
Proof.
  apply (@fitness_no_rejection hold_integrator [1] shared_init).
  intros I t. discriminate.
Defined.

(** C2 (as stated) fails.  The schedule decoded from [[1]] is out of order,
    yet the evaluation is not rejected: under the zero-order hold it
    returns [-10], which becomes [bval].  And when the integrator raises,
    the exception leaves [fitness] and the evaluation is not counted. *)
Lemma failures_not_rejected :
  ~ Sorted Qlt (decode [1]) /\
  fst (@fitness hold_integrator [1] shared_init) = Some (- (10)) /\
  bval (snd (@fitness hold_integrator [1] shared_init)) = - (10) /\
  @fitness raising_integrator [1] shared_init = (None, shared_init).
Proof.
  split; [apply schedule_of_one_unsorted|].
  split; [vm_compute; reflexivity|].
  split; vm_compute; reflexivity.
Qed.

(** ** The shared state along a sequence of calls *)

Lemma best_update_le (bv v : Q) : best_update bv v <= bv.
Proof.
  unfold best_update. destruct (Qltb v bv) eqn:E; cbn [andb]; [|lra].
  destruct (Qltb v big); [|lra]. apply Qltb_true in E. lra.
Qed.

Lemma best_update_cases (bv v : Q) :
  (v < bv /\ v < big /\ best_update bv v = v) \/
  (~ (v < bv /\ v < big) /\ best_update bv v = bv).
Proof.
  unfold best_update.
  destruct (Qltb v bv) eqn:E1; destruct (Qltb v big) eqn:E2; cbn [andb].
  - left. apply Qltb_true in E1, E2. now repeat split.
  - right. apply Qltb_false in E2. split; [|reflexivity]. intros [_ H]. lra.
  - right. apply Qltb_false in E1. split; [|reflexivity]. intros [H _]. lra.
  - right. apply Qltb_false in E1. split; [|reflexivity]. intros [H _]. lra.
Qed.

(** The best value after the updates by [vs], in order. *)
Lemma fold_best_spec (vs : list Q) :
  forall bv,
    let m := fold_left best_update vs bv in
    m <= bv /\
    Forall (fun v => v < big -> m <= v) vs /\
    (m = bv \/ (In m vs /\ m < big)).
Proof.
  induction vs as [|v vs IH]; intros bv; cbv zeta; cbn [fold_left].
  - repeat split; [lra | constructor | now left].
  - pose proof (best_update_le bv v) as Hle.
    destruct (IH (best_update bv v)) as (Hm & Hall & Hin).
    cbv zeta in *. repeat split.
    + lra.
    + constructor; [|exact Hall]. intro Hv.
      assert (Hup : best_update bv v <= v).
      { destruct (best_update_cases bv v) as [(H1 & H2 & E)|(Hn & E)];
          rewrite E; [lra|].
        destruct (Qlt_le_dec v bv) as [Hlt|Hge]; [|lra].
        exfalso. apply Hn. now split. }
      lra.
    + destruct Hin as [E|[Hin Hlt]]; [|right; split; [now right | exact Hlt]].
      destruct (best_update_cases bv v) as [(H1 & H2 & E')|(Hn & E')].
      * right. rewrite E, E'. split; [now left | exact H2].
      * left. now rewrite E, E'.
Qed.

Lemma wrap32_range (z : Z) : in_int32 (wrap32 z).
Proof.
  unfold in_int32, wrap32.
  pose proof (Z.mod_pos_bound (z + 2 ^ 31) (2 ^ 32) ltac:(lia)). lia.
Qed.

Lemma wrap32_id (z : Z) : in_int32 z -> wrap32 z = z.
Proof.
  unfold in_int32, wrap32. intro H.
  rewrite Z.mod_small by lia. lia.
Qed.

Lemma wrap32_add_l (x y : Z) : wrap32 (wrap32 x + y) = wrap32 (x + y).
Proof.
  unfold wrap32. f_equal.
  replace ((x + 2 ^ 31) mod 2 ^ 32 - 2 ^ 31 + y + 2 ^ 31)%Z
    with ((x + 2 ^ 31) mod 2 ^ 32 + y)%Z by lia.
  rewrite Zplus_mod_idemp_l. f_equal. lia.
Qed.

Lemma returned_some (v : Q) (rs : list (option Q)) :
  returned (Some v :: rs) = v :: returned rs.
Proof. reflexivity. Qed.

Lemma returned_none (rs : list (option Q)) :
  returned (None :: rs) = returned rs.
Proof. reflexivity. Qed.

Section Sequence.
Context {IG : Integrator}.

Lemma fitness_shared (X : list Q) (s : shared) :
  match fst (fitness X s) with
  | Some v =>
      bval (snd (fitness X s)) = best_update (bval s) v /\
      evals (snd (fitness X s)) = wrap32 (evals s + 1)
  | None => snd (fitness X s) = s
  end.
Proof.
  unfold fitness. destruct (fitness_value X) as [[v sm]|]; cbn [fst snd].
  - split; [apply bookkeeping_bval | apply bookkeeping_evals].
  - reflexivity.
Qed.

Lemma run_calls_cons (X : list Q) (Xs : list (list Q)) (s : shared) :
  run_calls (X :: Xs) s =
  (fst (fitness X s) :: fst (run_calls Xs (snd (fitness X s))),
   snd (run_calls Xs (snd (fitness X s)))).
Proof.
  cbn [run_calls]. destruct (fitness X s) as [r s1]. cbn [fst snd].
  now destruct (run_calls Xs s1).
Qed.

Lemma run_calls_bval (Xs : list (list Q)) :
  forall s,
    bval (snd (run_calls Xs s))
    = fold_left best_update (returned (fst (run_calls Xs s))) (bval s).
Proof.
  induction Xs as [|X Xs IH]; intro s; [reflexivity|].
  rewrite run_calls_cons. cbn [fst snd]. rewrite IH.
  pose proof (fitness_shared X s) as H.
  destruct (fst (fitness X s)) as [v|].
  - destruct H as [H _]. now rewrite H, returned_some.
  - now rewrite H, returned_none.
Qed.

Lemma run_calls_evals (Xs : list (list Q)) :
  forall s,
    in_int32 (evals s) ->
    evals (snd (run_calls Xs s))
    = wrap32 (evals s + Z.of_nat (length (returned (fst (run_calls Xs s))))).
Proof.
  induction Xs as [|X Xs IH]; intros s Hs.
  - cbn. rewrite Z.add_0_r. symmetry. now apply wrap32_id.
  - rewrite run_calls_cons. cbn [fst snd].
    pose proof (fitness_shared X s) as H.
    destruct (fst (fitness X s)) as [v|].
    + destruct H as [_ H]. rewrite IH by (rewrite H; apply wrap32_range).
      rewrite H, wrap32_add_l, returned_some. cbn [length]. f_equal. lia.
    + rewrite H, returned_none. now apply IH.
Qed.
End Sequence.

Section SharedState.
Context {IG : Integrator}.

(** C7 (as the code has it).  Along any sequence of calls made one after
    the other [bval] never increases; a call changes it only when its value
    is lower than [bval] and below [1E99], and then [bval] becomes that
    value; and after any such sequence of calls from the initial state,
    [bval] is the least of the accepted values returned so far (the initial
    [1E99] while there is none).  (Calls that overlap are another matter:
    [bval] is shared memory without a lock.) *)
Theorem bval_running_minimum (Xs : list (list Q)) (s : shared) :
  bval (snd (run_calls Xs s)) <= bval s /\
  (forall X,
      match fst (fitness X s) with
      | Some v =>
          (v < bval s /\ v < big /\ bval (snd (fitness X s)) = v) \/
          (~ (v < bval s /\ v < big) /\ bval (snd (fitness X s)) = bval s)
      | None => bval (snd (fitness X s)) = bval s
      end) /\
  match accepted (fst (run_calls Xs shared_init)) with
  | [] => bval (snd (run_calls Xs shared_init)) = big
  | _ :: _ =>
      is_min (bval (snd (run_calls Xs shared_init)))
        (accepted (fst (run_calls Xs shared_init)))
  end.
Proof.
  split; [|split].
  - rewrite run_calls_bval. apply fold_best_spec.
  - intro X. pose proof (fitness_shared X s) as H.
    destruct (fst (fitness X s)) as [v|]; [|now rewrite H].
    destruct H as [H _]. rewrite H.
    destruct (best_update_cases (bval s) v) as [(H1 & H2 & E)|(Hn & E)];
      [left | right]; now repeat split.
  - rewrite run_calls_bval. unfold accepted.
    set (vs := returned (fst (run_calls Xs shared_init))).
    destruct (fold_best_spec vs (bval shared_init)) as (_ & Hall & Hin).
    cbv zeta in *. change (bval shared_init) with big in *.
    set (m := fold_left best_update vs big) in *.
    assert (Hacc : m < big -> is_min m (filter (fun v => Qltb v big) vs)).
    { intro Hlt. destruct Hin as [E|[Hin _]]; [rewrite E in Hlt; lra|].
      split.
      - apply filter_In. split; [exact Hin | now apply Qltb_true].
      - apply Forall_forall. intros v Hv. apply filter_In in Hv.
        destruct Hv as [Hv Hvb]. apply Qltb_true in Hvb.
        rewrite Forall_forall in Hall. now apply Hall. }
    destruct (filter (fun v => Qltb v big) vs) as [|v0 l] eqn:E.
    + destruct Hin as [E'|[Hin Hlt]]; [exact E'|].
      assert (Hf : In m (filter (fun v => Qltb v big) vs))
        by (apply filter_In; split; [exact Hin | now apply Qltb_true]).
      rewrite E in Hf. contradiction.
    + apply Hacc.
      assert (Hv0 : In v0 (filter (fun v => Qltb v big) vs))
        by (rewrite E; now left).
      apply filter_In in Hv0. destruct Hv0 as [Hv0 Hb].
      apply Qltb_true in Hb. rewrite Forall_forall in Hall.
      specialize (Hall v0 Hv0 Hb). lra.
Qed.

(** C8 (as the code has it).  When the calls run one after the other from
    the initial state, [evals] is the number [N] of calls that returned,
    reduced to a C int: it is [N] itself as long as [N < 2^31].  Each call
    that returns stores [evals + 1] (as a C int), and a call that an
    exception leaves changes nothing. *)
Theorem evals_counts_calls (Xs : list (list Q)) :
  let r := run_calls Xs shared_init in
  let N := Z.of_nat (length (returned (fst r))) in
  evals (snd r) = wrap32 N /\
  ((N < 2 ^ 31)%Z -> evals (snd r) = N) /\
  (forall X s,
      match fst (fitness X s) with
      | Some _ => evals (snd (fitness X s)) = wrap32 (evals s + 1)
      | None => snd (fitness X s) = s
      end).
Proof.
  cbv zeta.
  assert (H : evals (snd (run_calls Xs shared_init))
              = wrap32 (Z.of_nat (length (returned (fst (run_calls Xs shared_init)))))).
  { rewrite run_calls_evals; [reflexivity|]. unfold in_int32. cbn. lia. }
  split; [exact H|]. split.
  - intro HN. rewrite H. apply wrap32_id. unfold in_int32. lia.
  - intros X s. pose proof (fitness_shared X s) as HX.
    destruct (fst (fitness X s)); [apply HX | exact HX].
Qed.
End SharedState.

(** [evals_counts_calls] at three calls under the zero-order hold. *)
Lemma evals_counts_calls_witness :
  evals (snd (@run_calls hold_integrator [scenario_A; six_culls; [1]] shared_init))
  = 3%Z.
Proof.
  apply (@evals_counts_calls hold_integrator [scenario_A; six_culls; [1]]).
  vm_compute. reflexivity.
Defined.

(** Three calls under the zero-order hold: every value is [-10], the first
    call sets [bval] and logs, the others leave it. *)
Example run_under_hold :
  let r := @run_calls hold_integrator [scenario_A; six_culls; [1]] shared_init in
  fst r = [Some (- (10)); Some (- (10)); Some (- (10))] /\
  bval (snd r) = - (10) /\ evals (snd r) = 3%Z /\ length (log (snd r)) = 1%nat.
Proof. vm_compute. repeat split; reflexivity. Qed.

(** ** Overlapping calls *)

(** A call that nothing interrupts does what [bookkeeping] does. *)
Lemma call_alone (X : list Q) (v : Q) (s : shared) :
  interleave [0; 0; 0; 0; 0]%nat
    [{| call_X := X; call_value := v; call_pc := AtLoad |}] s
  = ([{| call_X := X; call_value := v; call_pc := AtReturn |}],
     bookkeeping X (decode X) v s).
Proof.
  unfold bookkeeping. destruct s as [bv ev lg].
  cbn [interleave nth_error call_step call_pc call_value call_X at_pc set_nth
       bval evals log].
  destruct (Qltb v bv && Qltb v big) eqn:E.
  - cbn [interleave nth_error call_step call_pc call_value call_X at_pc set_nth
         bval evals log]. reflexivity.
  - cbn [interleave nth_error call_step call_pc call_value call_X at_pc set_nth
         bval evals log]. reflexivity.
Qed.

Lemma call_steps_alone (c : call) (s : shared) :
  call_pc c = AtLoad ->
  let r1 := call_step c s in
  let r2 := call_step (fst r1) (snd r1) in
  let r3 := call_step (fst r2) (snd r2) in
  let r4 := call_step (fst r3) (snd r3) in
  let r5 := call_step (fst r4) (snd r4) in
  r5 = (at_pc c AtReturn, book_call s c).
Proof.
  intro Hpc. cbv zeta. unfold book_call, bookkeeping.
  destruct s as [bv ev lg]. destruct c as [X v p]. cbn in Hpc. subst p.
  cbn [call_step call_pc call_value call_X at_pc bval evals log fst snd].
  destruct (Qltb v bv && Qltb v big);
    cbn [call_step call_pc call_value call_X at_pc bval evals log fst snd];
    reflexivity.
Qed.

Lemma nth_error_middle {A : Type} (l1 l2 : list A) (x : A) :
  nth_error (l1 ++ x :: l2) (length l1) = Some x.
Proof.
  induction l1 as [|y l1 IH]; [reflexivity | exact IH].
Qed.

Lemma set_nth_middle {A : Type} (l1 l2 : list A) (x y : A) :
  set_nth (length l1) y (l1 ++ x :: l2) = l1 ++ y :: l2.
Proof.
  induction l1 as [|z l1 IH]; [reflexivity|].
  cbn [length app set_nth]. now rewrite IH.
Qed.

Lemma interleave_step (i : nat) (sched : list nat) (done todo : list call)
    (c : call) (s : shared) :
  i = length done ->
  interleave (i :: sched) (done ++ c :: todo) s
  = interleave sched (done ++ fst (call_step c s) :: todo)
      (snd (call_step c s)).
Proof.
  intro Hi. subst i. cbn [interleave]. rewrite nth_error_middle.
  destruct (call_step c s) as [c' s']. cbn [fst snd].
  now rewrite set_nth_middle.
Qed.

Lemma interleave_block (sched : list nat) (done todo : list call)
    (c : call) (s : shared) :
  call_pc c = AtLoad ->
  interleave (repeat (length done) 5 ++ sched) (done ++ c :: todo) s
  = interleave sched (done ++ at_pc c AtReturn :: todo) (book_call s c).
Proof.
  intro Hpc. cbn [repeat app].
  rewrite !interleave_step by reflexivity.
  pose proof (call_steps_alone c s Hpc) as H. cbv zeta in H.
  now rewrite H.
Qed.

(** Under the sequential schedule every call goes through its book-keeping
    uninterrupted, in call order. *)
Lemma interleave_sequential (todo : list call) :
  forall (done : list call) (s : shared),
    Forall (fun c => call_pc c = AtLoad) todo ->
    snd (interleave
           (flat_map (fun i => repeat i 5) (seq (length done) (length todo)))
           (done ++ todo) s)
    = fold_left book_call todo s.
Proof.
  induction todo as [|c todo IH]; intros done s Hall; [reflexivity|].
  inversion Hall as [|? ? Hc Htodo]; subst.
  cbn [length seq flat_map fold_left].
  rewrite interleave_block by exact Hc.
  replace (done ++ at_pc c AtReturn :: todo)
    with ((done ++ [at_pc c AtReturn]) ++ todo) by now rewrite <- app_assoc.
  replace (S (length done)) with (length (done ++ [at_pc c AtReturn]))
    by (rewrite length_app; simpl; lia).
  now apply IH.
Qed.

Section Sequential.
Context {IG : Integrator}.

Lemma begin_calls_at_load (Xs : list (list Q)) :
  Forall (fun c => call_pc c = AtLoad) (begin_calls Xs).
Proof.
  unfold begin_calls. induction Xs as [|X Xs IH]; [constructor|].
  cbn [flat_map]. destruct (fitness_value X) as [[v sm]|]; [|exact IH].
  constructor; [reflexivity | exact IH].
Qed.

Lemma run_calls_book (Xs : list (list Q)) :
  forall s, snd (run_calls Xs s) = fold_left book_call (begin_calls Xs) s.
Proof.
  induction Xs as [|X Xs IH]; intro s; [reflexivity|].
  rewrite run_calls_cons. cbn [snd]. rewrite IH.
  unfold begin_calls at 2. cbn [flat_map]. unfold fitness.
  destruct (fitness_value X) as [[v sm]|]; reflexivity.
Qed.

(** Calls that do not overlap leave the shared state that [run_calls]
    computes. *)
Lemma sequential_is_run_calls (Xs : list (list Q)) (s : shared) :
  snd (interleave (sequential (length (begin_calls Xs))) (begin_calls Xs) s)
  = snd (run_calls Xs s).
Proof.
  rewrite run_calls_book. unfold sequential.
  apply (interleave_sequential (begin_calls Xs) [] s).
  apply begin_calls_at_load.
Qed.
End Sequential.

(** C8 (as stated) fails under concurrent calls.  Two calls evaluate
    scenario A (under the zero-order hold); both load [evals = 0] before
    either stores: both calls return and [evals] is [1]. *)
Lemma lost_increment :
  let cs := @begin_calls hold_integrator [scenario_A; scenario_A] in
  let r := interleave [0; 1; 0; 1; 0; 0; 0; 1; 1; 1]%nat cs shared_init in
  length cs = 2%nat /\
  map call_pc (fst r) = [AtReturn; AtReturn] /\
  evals (snd r) = 1%Z.
Proof. vm_compute. repeat split; reflexivity. Qed.

(** C7 (as stated) fails when calls overlap.  Under an integrator for
    which culling pays, [[0.5]] is worth [-43/2] and [[-0.5]] is worth
    [-16].  The second call passes the test of line 78 against the initial
    [bval]; the first call then runs lines 77-81 and sets [bval] to
    [-43/2]; the second call then stores its value: [bval] rises from
    [-43/2] to [-16], by an update whose value is not below the current
    [bval], and both calls return with [bval] above the least value
    returned. *)
Lemma bval_rises_when_calls_overlap :
  let cs := @begin_calls drift_integrator [[1 # 2]; [- (1 # 2)]] in
  let sched := [1; 1; 1; 0; 0; 0; 0; 0; 1; 1]%nat in
  let before := interleave (firstn 8 sched) cs shared_init in
  let after := interleave (firstn 9 sched) cs shared_init in
  let r := interleave sched cs shared_init in
  map call_value cs = [- (43 # 2); - (16)] /\
  map call_pc (fst before) = [AtReturn; AtSetBest] /\
  bval (snd before) = - (43 # 2) /\
  bval (snd after) = - (16) /\
  bval (snd before) < bval (snd after) /\
  map call_pc (fst r) = [AtReturn; AtReturn] /\
  bval (snd r) = - (16) /\
  ~ is_min (bval (snd r)) (map call_value (fst r)).
Proof.
  vm_compute.
  repeat (split; [reflexivity|]).
  intros [_ H]. inversion H as [|? ? Hle _]; subst.
  apply Hle. reflexivity.
Qed.

(** ** What a call leaves unchanged *)

Lemma ref_eqb_eq (r1 r2 : ref) : ref_eqb r1 r2 = true <-> r1 = r2.
Proof.
  destruct r1, r2; cbn; try (split; [discriminate | congruence]);
    try (split; reflexivity).
  rewrite Nat.eqb_eq. split; congruence.
Qed.

Lemma extends_refl (h : heap) : extends h h.
Proof. split; [lia | reflexivity]. Qed.

Lemma alloc_extends (h0 h : heap) (l : list Q) :
  extends h0 h -> extends h0 (snd (alloc h l)).
Proof.
  intros [Hn Hobj]. split; cbn; [lia|].
  intros r Hr. destruct (ref_eqb r (Ref_array (next_array h))) eqn:E.
  - apply ref_eqb_eq in E. subst r. cbn in Hr. lia.
  - now apply Hobj.
Qed.

Lemma alloc_fresh (h0 h : heap) (l : list Q) :
  extends h0 h -> ~ allocated h0 (fst (alloc h l)).
Proof.
  intros [Hn _]. cbn. lia.
Qed.

Lemma alloc_objects (h : heap) (l : list Q) :
  objects (snd (alloc h l)) (fst (alloc h l)) = l.
Proof.
  cbn. now rewrite Nat.eqb_refl.
Qed.

Lemma set_item_extends (h0 h h' : heap) (r : ref) (i : nat) (v : Q) :
  extends h0 h -> ~ allocated h0 r ->
  set_item h r i v = Some h' -> extends h0 h'.
Proof.
  intros [Hn Hobj] Hr H. unfold set_item in H.
  destruct (i <? length (objects h r))%nat; [|discriminate].
  inversion H; subst h'. split; cbn; [exact Hn|].
  intros r' Hr'. destruct (ref_eqb r' r) eqn:E.
  - apply ref_eqb_eq in E. subst r'. contradiction.
  - now apply Hobj.
Qed.

Lemma for_each_invariant {S A : Type} (P : S -> Prop)
    (body : S -> A -> option S) :
  (forall s x s', P s -> body s x = Some s' -> P s') ->
  forall l s s', P s -> for_each body s l = Some s' -> P s'.
Proof.
  intros Hb l. induction l as [|x l IH]; intros s s' Hs H; cbn in H.
  - now inversion H; subst.
  - destruct (body s x) as [s1|] eqn:E; [|discriminate].
    eapply IH; [|exact H]. eapply Hb; eauto.
Qed.

Section Frame.
Context {IG : Integrator}.

Lemma event_step_obj_extends (h0 : heap) (ts : list Q) (s s' : locals)
    (i : nat) :
  extends h0 (l_heap s) -> event_step_obj ts s i = Some s' ->
  extends h0 (l_heap s').
Proof.
  intros Hext H. unfold event_step_obj, integrate_obj in H.
  destruct (integrate (l_I s) (nth i ts 0)) as [[I' y]|]; [|discriminate].
  cbn [fst snd] in H.
  set (l := [rabbits y; foxes y]) in *.
  pose proof (alloc_extends h0 (l_heap s) l Hext) as Hext1.
  pose proof (alloc_fresh h0 (l_heap s) l Hext) as Hfresh.
  destruct (i <? length ts - 1)%nat.
  - destruct (get_item _ _ 1); [|discriminate].
    destruct (set_item _ _ 1 _) as [h'|] eqn:E; [|discriminate].
    inversion H; subst s'. cbn [l_heap].
    eapply set_item_extends; eauto.
  - inversion H; subst s'. exact Hext1.
Qed.

Lemma sample_step_obj_extends (h0 : heap) (s s' : locals * Q) (t : Q) :
  extends h0 (l_heap (fst s)) -> sample_step_obj s t = Some s' ->
  extends h0 (l_heap (fst s')).
Proof.
  intros Hext H. unfold sample_step_obj, integrate_obj in H.
  destruct (integrate (l_I (fst s)) t) as [[I' y]|]; [|discriminate].
  cbn [fst snd] in H.
  destruct (get_item _ _ 0); [|discriminate].
  inversion H; subst s'. cbn [fst l_heap].
  now apply alloc_extends.
Qed.

Lemma fitness_value_obj_extends (w : world) (v : Q) (h : heap) :
  fitness_value_obj w = Some (v, h) -> extends (w_heap w) h.
Proof.
  unfold fitness_value_obj. intro H.
  destruct (for_each (event_step_obj _) _ _) as [s|] eqn:E1; [|discriminate].
  destruct (for_each sample_step_obj _ _) as [[s1 m]|] eqn:E2; [|discriminate].
  inversion H; subst. cbn [fst].
  apply (for_each_invariant (fun s => extends (w_heap w) (l_heap s))) in E1.
  - apply (for_each_invariant (fun s => extends (w_heap w) (l_heap (fst s))))
      in E2; [exact E2 | | exact E1].
    intros s0 t s0'. apply sample_step_obj_extends.
  - intros s0 i s0'. apply event_step_obj_extends.
  - apply extends_refl.
Qed.

(** C10. A call leaves every object that existed before it as it was, the
    caller's vector and [pop0] among them, and leaves the floats [a], [b],
    [c], [d] and the bounds as they were.  Of the shared values, a call
    that returns replaces [evals] by [evals + 1] (as a C int) and either
    leaves [bval] or lowers it to the value returned, when that value is
    below [bval] and below [1E99], logging one record then; a call that an
    exception leaves changes nothing at all. *)
Theorem fitness_frame (w : world) :
  let w' := snd (fitness_obj w) in
  objects (w_heap w') Ref_X = objects (w_heap w) Ref_X /\
  objects (w_heap w') Ref_pop0 = objects (w_heap w) Ref_pop0 /\
  (forall r, allocated (w_heap w) r ->
             objects (w_heap w') r = objects (w_heap w) r) /\
  (w_a w', w_b w', w_c w', w_d w') = (w_a w, w_b w, w_c w, w_d w) /\
  w_bounds w' = w_bounds w /\
  match fst (fitness_obj w) with
  | Some v =>
      evals (w_shared w') = wrap32 (evals (w_shared w) + 1) /\
      ((bval (w_shared w') = bval (w_shared w) /\
        log (w_shared w') = log (w_shared w)) \/
       (bval (w_shared w') = v /\ v < bval (w_shared w) /\ v < big /\
        exists r, log (w_shared w') = log (w_shared w) ++ [r]))
  | None => w' = w
  end.
Proof.
  cbv zeta. unfold fitness_obj.
  destruct (fitness_value_obj w) as [[v h]|] eqn:E; cbn [fst snd].
  - apply fitness_value_obj_extends in E. destruct E as [_ Hobj].
    cbn [w_heap w_a w_b w_c w_d w_bounds w_shared].
    split; [now apply Hobj|]. split; [now apply Hobj|].
    split; [exact Hobj|]. split; [reflexivity|]. split; [reflexivity|].
    split; [apply bookkeeping_evals|].
    unfold bookkeeping.
    destruct (Qltb v (bval (w_shared w))) eqn:E1;
      destruct (Qltb v big) eqn:E2; cbn [andb bval log];
      try (left; split; reflexivity).
    right. apply Qltb_true in E1, E2.
    split; [reflexivity|]. split; [exact E1|]. split; [exact E2|].
    eexists. reflexivity.
  - repeat split.
Qed.
End Frame.

(** ** The two embeddings agree *)

Lemma for_each_related {S1 S2 A : Type} (R : S1 -> S2 -> Prop)
    (body1 : S1 -> A -> option S1) (body2 : S2 -> A -> option S2) :
  (forall s1 s2 x, R s1 s2 -> option_rel R (body1 s1 x) (body2 s2 x)) ->
  forall l s1 s2, R s1 s2 ->
    option_rel R (for_each body1 s1 l) (for_each body2 s2 l).
Proof.
  intros Hb l. induction l as [|x l IH]; intros s1 s2 HR; cbn [for_each].
  - exact HR.
  - specialize (Hb s1 s2 x HR).
    destruct (body1 s1 x) as [u|], (body2 s2 x) as [v|]; cbn in Hb;
      try contradiction; [now apply IH | exact I].
Qed.

Lemma ref_eqb_refl (r : ref) : ref_eqb r r = true.
Proof. now apply ref_eqb_eq. Qed.

Lemma set_item_two (h : heap) (r : ref) (x y v : Q) :
  objects h r = [x; y] ->
  exists h', set_item h r 1 v = Some h' /\ objects h' r = [x; v].
Proof.
  intro H. unfold set_item. rewrite H. cbn [length Nat.ltb Nat.leb].
  eexists. split; [reflexivity|]. cbn [objects].
  now rewrite ref_eqb_refl.
Qed.

Section Agreement.
Context {IG : Integrator}.

Lemma event_step_related (ts : list Q) (ls : locals) (s : sim) (i : nat) :
  same_locals ls s ->
  option_rel same_locals (event_step_obj ts ls i) (event_step ts s i).
Proof.
  intros [HI _]. unfold event_step_obj, event_step, integrate_obj.
  rewrite HI.
  destruct (integrate (sim_I s) (nth i ts 0)) as [[I' y]|]; [|exact I].
  cbn [fst snd].
  destruct (i <? length ts - 1)%nat.
  - unfold get_item. rewrite alloc_objects. cbn [nth_error].
    destruct (set_item_two (snd (alloc (l_heap ls) [rabbits y; foxes y]))
                (fst (alloc (l_heap ls) [rabbits y; foxes y]))
                (rabbits y) (foxes y) (pymax 1 (foxes y - 1))
                (alloc_objects _ _)) as (h' & E & Hobj).
    rewrite E. cbn [option_rel]. split; cbn [l_I l_pop l_heap sim_I sim_pop].
    + rewrite Hobj. reflexivity.
    + rewrite Hobj. reflexivity.
  - cbn [option_rel]. split; cbn [l_I l_pop l_heap sim_I sim_pop];
      [reflexivity | apply alloc_objects].
Qed.

Lemma sample_step_related (ls : locals * Q) (s : sim * Q) (t : Q) :
  same_locals (fst ls) (fst s) /\ snd ls = snd s ->
  option_rel (fun ls s => same_locals (fst ls) (fst s) /\ snd ls = snd s)
    (sample_step_obj ls t) (sample_step s t).
Proof.
  intros [[HI _] Hm]. unfold sample_step_obj, sample_step, integrate_obj.
  rewrite HI, Hm.
  destruct (integrate (sim_I (fst s)) t) as [[I' y]|]; [|exact I].
  cbn [fst snd]. unfold get_item. rewrite alloc_objects. cbn [nth_error].
  cbn [option_rel fst snd]. split; [split|reflexivity];
    cbn [l_I l_pop l_heap sim_I sim_pop]; [reflexivity | apply alloc_objects].
Qed.

Lemma fitness_value_obj_related (X : list Q) (s : shared) :
  option_rel (fun r1 r2 => fst r1 = fst r2)
    (fitness_value_obj (world_of X s)) (fitness_value X).
Proof.
  unfold fitness_value_obj, fitness_value, event_loop, sample_loop.
  cbn [world_of w_heap w_a w_b w_c w_d objects].
  match goal with
  | |- context [for_each (event_step_obj _) ?l0 _] =>
      match goal with
      | |- context [for_each (event_step _) ?s0 _] =>
          pose proof (for_each_related same_locals
                        (event_step_obj (decode X)) (event_step (decode X))
                        (event_step_related (decode X))
                        (seq 0 (length (decode X)))
                        l0 s0 (conj eq_refl eq_refl)) as Hloop
      end
  end.
  destruct (for_each (event_step_obj _) _ _) as [ls|];
    destruct (for_each (event_step _) _ _) as [s1|];
    cbn [option_rel] in Hloop; try contradiction; [|exact I].
  pose proof (for_each_related
                (fun ls s => same_locals (fst ls) (fst s) /\ snd ls = snd s)
                sample_step_obj sample_step sample_step_related
                (linspace (Qnat (length X)) (Qnat (length X) + 5) 50)
                (ls, 0) (s1, 0) (conj Hloop eq_refl)) as Hs.
  destruct (for_each sample_step_obj _ _) as [[ls2 m2]|];
    destruct (for_each sample_step _ _) as [[s2 m]|];
    cbn [option_rel] in Hs; try contradiction; [|exact I].
  destruct Hs as [_ Hm]. cbn [option_rel fst snd] in *. now rewrite Hm.
Qed.

(** The object-level call returns what the value-level call returns and
    leaves the shared values as the value-level call leaves them. *)
Lemma fitness_obj_agrees (X : list Q) (s : shared) :
  fst (fitness_obj (world_of X s)) = fst (fitness X s) /\
  w_shared (snd (fitness_obj (world_of X s))) = snd (fitness X s).
Proof.
  pose proof (fitness_value_obj_related X s) as Hv.
  unfold fitness_obj, fitness.
  destruct (fitness_value_obj (world_of X s)) as [[v h]|] eqn:E;
    destruct (fitness_value X) as [[v' sm]|];
    cbn [option_rel fst snd] in Hv; try contradiction.
  - apply fitness_value_obj_extends in E. destruct E as [_ Hobj].
    specialize (Hobj Ref_X I).
    cbn [fst snd w_shared world_of w_heap objects] in *.
    rewrite Hobj, Hv. split; reflexivity.
  - split; reflexivity.
Qed.
End Agreement.

Example fitness_obj_under_hold :
  let r := @fitness_obj hold_integrator (world_of [1 # 2; 1] shared_init) in
  fst r = Some (- (10)) /\
  objects (w_heap (snd r)) Ref_pop0 = [10; 5] /\
  objects (w_heap (snd r)) (Ref_array 0) = [10; 4] /\
  objects (w_heap (snd r)) (Ref_array 1) = [10; 3] /\
  next_array (w_heap (snd r)) = 53%nat.
Proof. vm_compute. repeat split; reflexivity. Qed.


(** * Further properties of the source *)

(** ** What the value depends on *)

Lemma same_culls_events (X Y : list Q) :
  same_culls X Y ->
  forall year, events_from year X = events_from year Y.
Proof.
  induction 1 as [|x y X Y Hxy _ IH]; intro year; [reflexivity|].
  cbn [events_from]. rewrite IH.
  destruct Hxy as [E|[Hx Hy]]; [now subst|].
  apply Qgtb_false in Hx, Hy. now rewrite Hx, Hy.
Qed.

Lemma same_culls_decode (X Y : list Q) :
  same_culls X Y -> length X = length Y /\ decode X = decode Y.
Proof.
  intro H. assert (Hlen : length X = length Y) by (eapply Forall2_length, H).
  split; [exact Hlen|].
  now rewrite !decode_events, (same_culls_events X Y H), Hlen.
Qed.

(** X2. The entries that are not positive do not matter: two vectors that
    ask for the same culls get the same value, both calls raise or neither
    does, and they leave the same [bval] and [evals]. *)
Theorem fitness_ignores_nonpositive {IG : Integrator} (X Y : list Q)
    (s : shared) :
  same_culls X Y ->
  fst (fitness X s) = fst (fitness Y s) /\
  bval (snd (fitness X s)) = bval (snd (fitness Y s)) /\
  evals (snd (fitness X s)) = evals (snd (fitness Y s)).
Proof.
  intro H. apply same_culls_decode in H. destruct H as [Hlen Hdec].
  assert (Hv : fitness_value X = fitness_value Y)
    by (unfold fitness_value; now rewrite Hdec, Hlen).
  unfold fitness. rewrite Hv.
  destruct (fitness_value Y) as [[v sm]|]; cbn [fst snd].
  - now rewrite !bookkeeping_bval, !bookkeeping_evals.
  - now repeat split.
Qed.

(** [fitness_ignores_nonpositive] at two vectors with one cull in the
    second year. *)
Lemma fitness_ignores_nonpositive_witness :
  fst (@fitness hold_integrator [- (1 # 2); 1 # 4; 0] shared_init)
  = fst (@fitness hold_integrator [-1; 1 # 4; - (1 # 3)] shared_init).
Proof.
  apply (@fitness_ignores_nonpositive hold_integrator
           [- (1 # 2); 1 # 4; 0] [-1; 1 # 4; - (1 # 3)] shared_init).
  constructor; [right; split; unfold Qle; simpl; lia|].
  constructor; [left; reflexivity|].
  constructor; [right; split; unfold Qle; simpl; lia | constructor].
Defined.

(** ** The operations of an evaluation *)






Section Operations.
Context {IG : Integrator}.

End Operations.


(** ** The integrator only goes forward *)

Lemma event_shape_propagations (ts : list Q) :
  map snd (filter (fun p => negb (fst p)) (event_shape ts)) = ts.
Proof.
  induction ts as [|t ts' IH]; [reflexivity|].
  destruct ts' as [|t' ts'']; [reflexivity|].
  change (event_shape (t :: t' :: ts''))
    with ((false, t) :: (true, t) :: event_shape (t' :: ts'')).
  cbn [filter fst negb map snd]. now rewrite IH.
Qed.

Lemma propagations_of_shape (tr : list op) :
  propagation_times tr
  = map snd (filter (fun p => negb (fst p)) (map op_shape tr)).
Proof.
  unfold propagation_times. induction tr as [|o tr IH]; [reflexivity|].
  cbn [map filter]. unfold op_shape at 1. cbn [fst].
  destruct (is_transition o); cbn [negb map snd]; now rewrite IH.
Qed.

Lemma propagation_times_app (tr1 tr2 : list op) :
  propagation_times (tr1 ++ tr2)
  = propagation_times tr1 ++ propagation_times tr2.
Proof.
  unfold propagation_times. now rewrite filter_app, map_app.
Qed.

Lemma propagation_times_sampling (w : list Q) :
  forall ys, length ys = length w ->
    propagation_times
      (map (fun ty => Propagate (fst ty) (snd ty)) (combine w ys)) = w.
Proof.
  unfold propagation_times.
  induction w as [|t w IH]; intros [|y ys] H; try discriminate; [reflexivity|].
  cbn. f_equal. apply IH. now inversion H.
Qed.

Lemma StronglySorted_app {A : Type} (R : A -> A -> Prop) (l1 l2 : list A) :
  StronglySorted R l1 -> StronglySorted R l2 ->
  (forall x y, In x l1 -> In y l2 -> R x y) ->
  StronglySorted R (l1 ++ l2).
Proof.
  intros H1 H2 H12. induction H1 as [|x l1 H1 IH Hx]; [exact H2|].
  cbn [app]. constructor.
  - apply IH. intros u w Hu Hw. apply H12; [now right | exact Hw].
  - apply Forall_app. split; [exact Hx|].
    apply Forall_forall. intros y Hy. apply H12; [now left | exact Hy].
Qed.

Lemma decode_weakly_sorted (X : list Q) :
  Forall in_bounds X ->
  StronglySorted Qle (decode X) /\
  Forall (fun t => t0 <= t /\ t <= Qnat (length X)) (decode X).
Proof.
  intro HX. apply Forall_in_bounds_upper in HX.
  pose proof (events_from_upper X 0%nat HX) as Hup. cbn [Nat.add] in Hup.
  rewrite decode_events. split.
  - apply StronglySorted_snoc; [|exact Hup].
    apply (events_from_sorted X 0%nat HX).
  - apply Forall_app. split.
    + pose proof (events_from_lower X 0%nat) as Hlow.
      rewrite Forall_forall in *. intros t Ht.
      specialize (Hup t Ht). specialize (Hlow t Ht). cbn beta in *.
      change (Qnat 0) with 0 in Hlow. unfold t0. split; [lra | exact Hup].
    + constructor; [|constructor]. unfold t0.
      split; [apply Qnat_nonneg | lra].
Qed.

Lemma linspace_sorted (start stop : Q) (num : nat) :
  start <= stop ->
  StronglySorted Qle (linspace start stop num) /\
  Forall (fun t => start <= t) (linspace start stop num).
Proof.
  intro H. unfold linspace.
  set (step := (stop - start) / Qnat (num - 1)).
  assert (Hstep : 0 <= step).
  { unfold step, Qdiv. apply Qmult_le_0_compat; [lra|].
    apply Qinv_le_0_compat, Qnat_nonneg. }
  assert (Hmono : forall i j, (i <= j)%nat ->
            Qnat i * step + start <= Qnat j * step + start).
  { intros i j Hij. pose proof (Qnat_le i j Hij) as Hq.
    assert (Qnat i * step <= Qnat j * step)
      by (apply Qmult_le_compat_r; assumption).
    lra. }
  split.
  - assert (Hgen : forall m k,
              StronglySorted Qle
                (map (fun k => Qnat k * step + start) (seq k m))).
    { induction m as [|m IH]; intro k; cbn [seq map]; constructor;
        [apply IH|].
      apply Forall_forall. intros t Ht. apply in_map_iff in Ht.
      destruct Ht as (j & Ej & Hj). apply in_seq in Hj. subst t.
      apply Hmono. lia. }
    apply Hgen.
  - apply Forall_forall. intros t Ht. apply in_map_iff in Ht.
    destruct Ht as (j & Ej & _). subst t.
    pose proof (Qnat_nonneg j) as Hj.
    assert (0 <= Qnat j * step) by (apply Qmult_le_0_compat; assumption).
    lra.
Qed.

Section Forward.
Context {IG : Integrator}.

Lemma fitness_value_propagations (X : list Q) (v : Q) (s' : sim) :
  fitness_value X = Some (v, s') ->
  propagation_times (sim_trace s')
  = decode X ++ linspace (Qnat (length X)) (Qnat (length X) + 5) 50.
Proof.
  intro H. apply fitness_value_inv in H.
  destruct H as (s & ys & Hev & Hlen & Htr & _).
  apply event_loop_trace in Hev. destruct Hev as (Hshape & _ & _).
  rewrite Htr, propagation_times_app, propagation_times_sampling
    by now rewrite linspace_length.
  now rewrite propagations_of_shape, Hshape, event_shape_propagations.
Qed.

(** X5. The integrator is asked to reach the entries of the schedule, in
    order, and then the fifty sample times; for a vector within the bounds
    these targets never go back in time, starting from [t0]. *)
Theorem propagation_forward (X : list Q) (v : Q) (s' : sim) :
  Forall in_bounds X ->
  fitness_value X = Some (v, s') ->
  propagation_times (sim_trace s')
  = decode X ++ linspace (Qnat (length X)) (Qnat (length X) + 5) 50 /\
  StronglySorted Qle (t0 :: propagation_times (sim_trace s')).
Proof.
  intros HX H. pose proof (fitness_value_propagations X v s' H) as E.
  split; [exact E|]. rewrite E.
  destruct (decode_weakly_sorted X HX) as [Hsorted Hrange].
  destruct (linspace_sorted (Qnat (length X)) (Qnat (length X) + 5) 50
              ltac:(lra)) as [Hw Hlow].
  rewrite Forall_forall in Hrange, Hlow.
  constructor.
  - apply StronglySorted_app; [exact Hsorted | exact Hw|].
    intros x y Hx Hy. specialize (Hrange x Hx). specialize (Hlow y Hy).
    cbn beta in *. lra.
  - apply Forall_app. split; apply Forall_forall; intros t Ht.
    + now apply Hrange.
    + specialize (Hlow t Ht). cbn beta in Hlow.
      pose proof (Qnat_nonneg (length X)). unfold t0. lra.
Qed.
End Forward.

(** [propagation_forward] at a three-year vector under the zero-order
    hold. *)
Lemma propagation_forward_witness :
  exists v s',
    @fitness_value hold_integrator [1; - (1 # 2); 1 # 3] = Some (v, s') /\
    StronglySorted Qle (t0 :: propagation_times (sim_trace s')).
Proof.
  eexists. eexists. split.
  - vm_compute. reflexivity.
  - eapply (@propagation_forward hold_integrator [1; - (1 # 2); 1 # 3]).
    + repeat constructor; unfold Qle; simpl; lia.
    + vm_compute. reflexivity.
Defined.

(** Outside the bounds the targets can go back: [[1.5, 0.25]] sends the
    integrator to 1.5 and then to 1.25. *)
Example propagation_backward :
  option_map (fun r => firstn 2 (propagation_times (sim_trace (snd r))))
    (@fitness_value hold_integrator [1.5; 0.25])
  = Some [0 + 0 + 1.5; 0 + 1 + 0.25].
Proof. vm_compute. reflexivity. Qed.

(** ** What a cull does to the foxes *)

Lemma kill_fox_effect (pop : population) :
  rabbits (kill_fox pop) = rabbits pop /\
  (foxes pop < 1 ->
   foxes (kill_fox pop) = 1 /\ foxes pop < foxes (kill_fox pop)) /\
  (1 <= foxes pop ->
   foxes pop - 1 <= foxes (kill_fox pop) /\ foxes (kill_fox pop) <= foxes pop) /\
  (foxes pop <= 2 -> foxes (kill_fox pop) = 1).
Proof.
  unfold kill_fox, rabbits, foxes, pymax. cbn [fst snd].
  split; [reflexivity|].
  destruct (Qgtb (snd pop - 1) 1) eqn:E.
  - apply Qgtb_true in E. repeat split; intros; lra.
  - apply Qgtb_false in E. repeat split; intros; try reflexivity; lra.
Qed.

Section Culls.
Context {IG : Integrator}.

(** X6. A cull does not always remove a fox.  In every round of the event
    loop but the last, the population the round leaves in [pop] has the
    rabbits the integrator returned; when the integrator returned fewer
    than one fox the round raises the foxes to one; when it returned at
    most two the round leaves exactly one; and when it returned at least
    one the round never removes more than one. *)
Theorem cull_effect (X : list Q) (k : nat) (s' : sim) :
  (k < length (decode X) - 1)%nat ->
  event_prefix (decode X) (S k) = Some s' ->
  exists s I' y,
    event_prefix (decode X) k = Some s /\
    integrate (sim_I s) (nth k (decode X) 0) = Some (I', y) /\
    rabbits (sim_pop s') = rabbits y /\
    (foxes y < 1 ->
     foxes (sim_pop s') = 1 /\ foxes y < foxes (sim_pop s')) /\
    (1 <= foxes y ->
     foxes y - 1 <= foxes (sim_pop s') /\ foxes (sim_pop s') <= foxes y) /\
    (foxes y <= 2 -> foxes (sim_pop s') = 1).
Proof.
  intros Hk H.
  destruct (event_prefix_cull (decode X) k s' Hk H)
    as (s & I' & y & Hs & Hint & Hpop & _).
  exists s, I', y. rewrite Hpop.
  split; [exact Hs|]. split; [exact Hint|]. apply kill_fox_effect.
Qed.
End Culls.

(** Under the Euler integrator the foxes are down to a third of a fox at
    the second cull of [[0.5, 1]], and the cull leaves one fox. *)
Example cull_adds_foxes :
  option_map
    (fun s => nth 3 (sim_trace s) (Propagate 0 (0, 0)))
    (@event_loop euler_integrator (decode [1 # 2; 1]))
  = Some (Transition 2 (1745 # 64, 85 # 256) (1745 # 64, 1)).
Proof. vm_compute. reflexivity. Qed.

(** [cull_effect] at the second cull of [[0.5, 1]] under the Euler
    integrator: the round finds [85/256] of a fox and leaves one fox. *)
Lemma cull_effect_witness :
  exists s',
    @event_prefix euler_integrator (decode [1 # 2; 1]) 2 = Some s' /\
    sim_pop s' = (1745 # 64, 1) /\
    exists s I' y,
      @event_prefix euler_integrator (decode [1 # 2; 1]) 1 = Some s /\
      integrate (sim_I s) (nth 1 (decode [1 # 2; 1]) 0) = Some (I', y) /\
      rabbits (sim_pop s') = rabbits y /\
      (foxes y < 1 ->
       foxes (sim_pop s') = 1 /\ foxes y < foxes (sim_pop s')) /\
      (1 <= foxes y ->
       foxes y - 1 <= foxes (sim_pop s') /\ foxes (sim_pop s') <= foxes y) /\
      (foxes y <= 2 -> foxes (sim_pop s') = 1).
Proof.
  eexists. split; [|split].
  - vm_compute. reflexivity.
  - reflexivity.
  - apply (@cull_effect euler_integrator [1 # 2; 1] 1).
    + vm_compute. lia.
    + vm_compute. reflexivity.
Defined.

(** ** The sign of the value *)

Section Sign.
Context {IG : Integrator}.

(** X7. The value of a completed evaluation is zero exactly when no sample
    has a positive number of rabbits, and negative exactly when some sample
    has. *)
Theorem value_sign (X : list Q) (v : Q) (s' : sim) :
  fitness_value X = Some (v, s') ->
  (v == 0 <-> Forall (fun y => rabbits y <= 0) (samples (sim_trace s'))) /\
  (v < 0 <-> Exists (fun y => 0 < rabbits y) (samples (sim_trace s'))).
Proof.
  intro H. apply fitness_value_samples in H.
  destruct H as (s & _ & _ & _ & Hv).
  set (l := samples (sim_trace s')) in *.
  destruct (fold_pymax_spec (map rabbits l) 0) as (Hge & Hall & Hin).
  set (m := fold_left pymax (map rabbits l) 0) in *.
  rewrite Forall_forall in Hall.
  assert (Hle : forall y, In y l -> rabbits y <= m)
    by (intros y Hy; apply Hall; now apply in_map).
  assert (Hmax : m == 0 \/ exists y, In y l /\ rabbits y == m).
  { destruct Hin as [E|Hin]; [left; now rewrite E|].
    right. apply in_map_iff in Hin. destruct Hin as (y & E & Hy).
    exists y. split; [exact Hy | now rewrite E]. }
  subst v. split; split.
  - intro Hz. apply Forall_forall. intros y Hy. specialize (Hle y Hy). lra.
  - intro Hnone. rewrite Forall_forall in Hnone.
    destruct Hmax as [E|(y & Hy & E)]; [lra|].
    specialize (Hnone y Hy). cbn beta in Hnone. lra.
  - intro Hneg. destruct Hmax as [E|(y & Hy & E)]; [lra|].
    apply Exists_exists. exists y. split; [exact Hy | lra].
  - intro Hex. apply Exists_exists in Hex. destruct Hex as (y & Hy & Hpos).
    specialize (Hle y Hy). lra.
Qed.
End Sign.

(** [value_sign] at scenario A under the zero-order hold. *)
Lemma value_sign_witness :
  exists v s',
    @fitness_value hold_integrator scenario_A = Some (v, s') /\
    (v < 0 <-> Exists (fun y => 0 < rabbits y) (samples (sim_trace s'))).
Proof.
  eexists. eexists. split.
  - vm_compute. reflexivity.
  - eapply (@value_sign hold_integrator scenario_A). vm_compute. reflexivity.
Defined.

(** ** The log *)

Lemma bookkeeping_log_kept (X ts : list Q) (v : Q) (s : shared) :
  bval s <= v -> bookkeeping X ts v s
                 = {| bval := bval s; evals := wrap32 (evals s + 1);
                      log := log s |}.
Proof.
  intro H. unfold bookkeeping.
  replace (Qltb v (bval s)) with false
    by (symmetry; now apply Qltb_false).
  reflexivity.
Qed.

Lemma bookkeeping_log_grown (X ts : list Q) (v : Q) (s : shared) :
  v < bval s -> v < big ->
  bookkeeping X ts v s
  = {| bval := v; evals := wrap32 (evals s + 1);
       log := log s ++ [{| log_nfev := wrap32 (evals s + 1); log_fval := v;
                           log_fox_kill_at := removelast ts; log_x := X |}] |}.
Proof.
  intros H1 H2. unfold bookkeeping.
  replace (Qltb v (bval s)) with true by (symmetry; now apply Qltb_true).
  replace (Qltb v big) with true by (symmetry; now apply Qltb_true).
  reflexivity.
Qed.

Lemma bookkeeping_improving (X ts : list Q) (v : Q) (s : shared) :
  v < big -> log_improving s ->
  log_improving (bookkeeping X ts v s) /\
  exists recs, log (bookkeeping X ts v s) = log s ++ recs /\
               (length recs <= 1)%nat.
Proof.
  intros Hv (Hsorted & Hlast & Hall).
  destruct (Qlt_le_dec v (bval s)) as [Hlt|Hge].
  - rewrite bookkeeping_log_grown by assumption.
    split; [|eexists; split; [reflexivity | simpl; lia]].
    unfold log_improving. cbn [bval log]. split; [|split].
    + apply StronglySorted_snoc; [exact Hsorted|].
      eapply Forall_impl; [|exact Hall]. cbn [log_fval]. intros r [Hr _]. lra.
    + rewrite map_app. cbn [map log_fval]. now rewrite last_last.
    + apply Forall_app. split.
      * eapply Forall_impl; [|exact Hall]. intros r [Hr Hb]. split; [lra | exact Hb].
      * constructor; [|constructor]. cbn [log_fval]. split; [lra | exact Hv].
  - rewrite bookkeeping_log_kept by assumption.
    split; [|exists []; split; [now rewrite app_nil_r | simpl; lia]].
    unfold log_improving. cbn [bval log]. now repeat split.
Qed.

Section Log.
Context {IG : Integrator}.

Lemma fitness_improving (X : list Q) (s : shared) :
  log_improving s ->
  log_improving (snd (fitness X s)) /\
  exists recs, log (snd (fitness X s)) = log s ++ recs /\
               (length recs <= length (returned [fst (fitness X s)]))%nat.
Proof.
  intro H. unfold fitness.
  destruct (fitness_value X) as [[v sm]|] eqn:E; cbn [fst snd].
  - apply fitness_value_nonpositive in E. pose proof big_positive.
    apply bookkeeping_improving; [lra | exact H].
  - split; [exact H|]. exists []. now rewrite app_nil_r.
Qed.

(** X8. The log records strict improvements.  Along calls made one after
    the other from a state whose log does, the logged values keep
    decreasing strictly, all of them are below [1E99], [bval] is the last
    value logged ([1E99] while the log is empty), and at most one record
    is added per call that returns. *)
Theorem log_records_improvements (Xs : list (list Q)) (s : shared) :
  log_improving s ->
  log_improving (snd (run_calls Xs s)) /\
  exists recs,
    log (snd (run_calls Xs s)) = log s ++ recs /\
    (length recs <= length (returned (fst (run_calls Xs s))))%nat.
Proof.
  revert s. induction Xs as [|X Xs IH]; intros s H.
  - split; [exact H|]. exists []. now rewrite app_nil_r.
  - rewrite run_calls_cons. cbn [fst snd].
    destruct (fitness_improving X s H) as (H1 & recs1 & E1 & L1).
    destruct (IH _ H1) as (H2 & recs2 & E2 & L2).
    split; [exact H2|]. exists (recs1 ++ recs2).
    split; [now rewrite E2, E1, app_assoc|].
    rewrite length_app.
    destruct (fst (fitness X s)) as [v|];
      [rewrite returned_some | rewrite returned_none];
      cbn [returned flat_map app length] in *; lia.
Qed.

(** X9. The record that a call logs.  A call whose value is below [bval]
    appends one record: the new [evals], the value, the times at which the
    evaluation applied its transitions, and the vector.  A call whose
    value is not below [bval] logs nothing. *)
Theorem logged_record (X : list Q) (s : shared) (v : Q) (sm : sim) :
  fitness_value X = Some (v, sm) ->
  (v < bval s ->
   log (snd (fitness X s))
   = log s ++ [{| log_nfev := evals (snd (fitness X s));
                  log_fval := v;
                  log_fox_kill_at :=
                    map op_time (filter is_transition (sim_trace sm));
                  log_x := X |}]) /\
  (bval s <= v -> log (snd (fitness X s)) = log s).
Proof.
  intro H. pose proof (transition_times X v sm H) as Ht.
  pose proof (fitness_value_nonpositive X v sm H) as Hle.
  pose proof big_positive as Hbig.
  unfold fitness. rewrite H. cbn [snd]. split; intro Hv.
  - rewrite bookkeeping_log_grown by (try assumption; lra).
    cbn [log evals]. now rewrite Ht.
  - now rewrite bookkeeping_log_kept.
Qed.
End Log.

(** [log_records_improvements] from the initial state, three calls under
    the zero-order hold. *)
Lemma log_records_improvements_witness :
  log_improving
    (snd (@run_calls hold_integrator [scenario_A; six_culls; [1]] shared_init)).
Proof.
  apply (@log_records_improvements hold_integrator
           [scenario_A; six_culls; [1]] shared_init).
  split; [constructor | split; [reflexivity | constructor]].
Defined.

(** [logged_record] at a two-year vector under the zero-order hold, from
    the initial state. *)
Lemma logged_record_witness :
  exists v sm,
    @fitness_value hold_integrator [1 # 2; 1] = Some (v, sm) /\
    log (snd (@fitness hold_integrator [1 # 2; 1] shared_init))
    = [{| log_nfev := 1; log_fval := - (10);
          log_fox_kill_at := [0 + 0 + (1 # 2); 0 + 1 + 1];
          log_x := [1 # 2; 1] |}].
Proof.
  eexists. eexists. split.
  - vm_compute. reflexivity.
  - etransitivity.
    + refine (proj1 (@logged_record hold_integrator [1 # 2; 1] shared_init
                       _ _ _) _).
      * vm_compute. reflexivity.
      * vm_compute. reflexivity.
    + vm_compute. reflexivity.
Defined.

(** ** The counter as a C int *)

Lemma wrap32_succ (z : Z) :
  in_int32 z ->
  ((z < 2 ^ 31 - 1 -> wrap32 (z + 1) = z + 1) /\
   (z = 2 ^ 31 - 1 -> wrap32 (z + 1) = - 2 ^ 31))%Z.
Proof.
  unfold in_int32. intro H. split; intro Hz.
  - apply wrap32_id. unfold in_int32. lia.
  - subst z. reflexivity.
Qed.

(** X10. [evals] is a C int.  A call that returns leaves it in the 32-bit
    signed range; from a value of that range it adds exactly one below
    [2^31 - 1], and at [2^31 - 1] the counter falls to [-2^31]. *)
Theorem evals_c_int {IG : Integrator} (X : list Q) (s : shared) :
  fst (fitness X s) <> None ->
  in_int32 (evals (snd (fitness X s))) /\
  (in_int32 (evals s) ->
   ((evals s < 2 ^ 31 - 1 -> evals (snd (fitness X s)) = evals s + 1) /\
    (evals s = 2 ^ 31 - 1 -> evals (snd (fitness X s)) = - 2 ^ 31))%Z).
Proof.
  intro H. pose proof (fitness_shared X s) as HX.
  destruct (fst (fitness X s)) as [v|]; [|congruence].
  destruct HX as [_ HX]. rewrite HX.
  split; [apply wrap32_range | apply wrap32_succ].
Qed.

(** [evals_c_int] at the last value the counter can hold. *)
Lemma evals_c_int_witness :
  evals (snd (@fitness hold_integrator [1]
                {| bval := big; evals := 2 ^ 31 - 1; log := [] |}))
  = (- 2 ^ 31)%Z.
Proof.
  refine (proj2 (proj2 (@evals_c_int hold_integrator [1]
                          {| bval := big; evals := 2 ^ 31 - 1; log := [] |} _)
                   _) _).
  - vm_compute. discriminate.
  - vm_compute. split; [discriminate | reflexivity].
  - reflexivity.
Defined.

(** ** The main block *)

Lemma fitness_returns {IG : Integrator} (X : list Q) (s s' : shared) (v : Q) :
  fitness X s = (Some v, s') ->
  v <= 0 /\ s' = bookkeeping X (decode X) v s.
Proof.
  unfold fitness. destruct (fitness_value X) as [[v' sm]|] eqn:E;
    [|discriminate].
  intro H. inversion H; subst. split; [|reflexivity].
  eapply fitness_value_nonpositive, E.
Qed.

Lemma fitness_raises {IG : Integrator} (X : list Q) (s s' : shared) :
  fitness X s = (None, s') -> s' = s.
Proof.
  unfold fitness. destruct (fitness_value X) as [[v' sm]|]; [discriminate|].
  intro H. now inversion H.
Qed.

Lemma bookkeeping_below (X ts : list Q) (v : Q) (s : shared) :
  bval s <= - big -> bval (bookkeeping X ts v s) <= - big.
Proof.
  intro H. rewrite bookkeeping_bval.
  pose proof (best_update_le (bval s) v). lra.
Qed.

Lemma bookkeeping_silent (X ts : list Q) (v : Q) (s : shared) :
  bval s = - big -> - big <= v ->
  bval (bookkeeping X ts v s) = - big /\ log (bookkeeping X ts v s) = log s.
Proof.
  intros Hb Hv. rewrite bookkeeping_log_kept by (rewrite Hb; exact Hv).
  cbn [bval log]. now split.
Qed.

(** X13. The main block does not reset the counter.  When its three
    demonstration calls return, [bval] is [1E99] again and [evals] has
    advanced by three (as a C int), so the optimisation that follows
    starts counting at three; the calls log nothing unless one of them
    returns a value below [-1E99].  When one of them raises, [bval] is
    left at or below [-1E99]. *)
Theorem main_demo_counts {IG : Integrator} (s : shared) :
  match main_demo s with
  | (Some vs, s') =>
      length vs = 3%nat /\
      bval s' = big /\
      evals s' = wrap32 (evals s + 3) /\
      (Forall (fun v => - big <= v) vs -> log s' = log s)
  | (None, s') => bval s' <= - big
  end.
Proof.
  unfold main_demo.
  set (s0 := set_bval s (- big)).
  assert (H0 : bval s0 <= - big) by apply Qle_refl.
  destruct (fitness scenario_A s0) as [[v1|] s1] eqn:E1.
  2:{ apply fitness_raises in E1. now subst. }
  apply fitness_returns in E1. destruct E1 as [_ E1].
  assert (H1 : bval s1 <= - big) by (subst s1; now apply bookkeeping_below).
  destruct (fitness scenario_B s1) as [[v2|] s2] eqn:E2.
  2:{ apply fitness_raises in E2. now subst s2. }
  apply fitness_returns in E2. destruct E2 as [_ E2].
  assert (H2 : bval s2 <= - big) by (subst s2; now apply bookkeeping_below).
  destruct (fitness solution s2) as [[v3|] s3] eqn:E3.
  2:{ apply fitness_raises in E3. now subst s3. }
  apply fitness_returns in E3. destruct E3 as [_ E3].
  split; [reflexivity|]. split; [reflexivity|]. split.
  - cbn [set_bval evals]. subst s3 s2 s1.
    rewrite !bookkeeping_evals, wrap32_add_l, <- Z.add_assoc, wrap32_add_l.
    subst s0. cbn [set_bval evals].
    f_equal. lia.
  - intro Hall. inversion Hall as [|? ? Hv1 Hall1]; subst.
    inversion Hall1 as [|? ? Hv2 Hall2]; subst.
    inversion Hall2 as [|? ? Hv3 _]; subst.
    cbn [set_bval log].
    destruct (bookkeeping_silent scenario_A (decode scenario_A) v1 s0
                eq_refl Hv1) as [B1 L1].
    destruct (bookkeeping_silent scenario_B (decode scenario_B) v2 _ B1 Hv2)
      as [B2 L2].
    destruct (bookkeeping_silent solution (decode solution) v3 _ B2 Hv3)
      as [_ L3].
    now rewrite L3, L2, L1.
Qed.

(** The main block from the initial state, under the zero-order hold. *)
Example main_demo_under_hold :
  let r := @main_demo hold_integrator shared_init in
  fst r = Some [- (10); - (10); - (10)] /\
  bval (snd r) = big /\ evals (snd r) = 3%Z /\ log (snd r) = [].
Proof. vm_compute. repeat split; reflexivity. Qed.

(** [main_demo_counts] from the initial state, under the zero-order hold:
    nothing is logged. *)
Lemma main_demo_counts_witness :
  log (snd (@main_demo hold_integrator shared_init)) = log shared_init.
Proof.
  pose proof (@main_demo_counts hold_integrator shared_init) as H.
  destruct (@main_demo hold_integrator shared_init) as [[vs|] s'] eqn:E;
    vm_compute in E; [|discriminate].
  injection E as Evs Es'. subst vs. cbn [snd]. apply H.
  repeat constructor; vm_compute; discriminate.
Defined.

(** ** Overlapping calls: what can and what cannot happen *)

Lemma stored_middle (l1 l2 : list call) (c : call) :
  stored (l1 ++ c :: l2)
  = (stored l1 + (if past_store c then 1 else 0) + stored l2)%Z.
Proof.
  unfold stored. rewrite filter_app. cbn [filter].
  destruct (past_store c); rewrite length_app; cbn [length]; lia.
Qed.

Lemma stored_le_length (cs : list call) :
  (0 <= stored cs <= Z.of_nat (length cs))%Z.
Proof.
  unfold stored. pose proof (filter_length_le past_store cs). lia.
Qed.

Lemma pending_ok_mono (n m : Z) (c : call) :
  (n <= m)%Z -> pending_ok n c -> pending_ok m c.
Proof.
  unfold pending_ok. destruct (call_pc c); auto. lia.
Qed.

Lemma call_step_counter (l1 l2 : list call) (c : call) (s : shared) :
  (Z.of_nat (length (l1 ++ c :: l2)) < 2 ^ 31)%Z ->
  counter_inv (l1 ++ c :: l2) s ->
  counter_inv (l1 ++ fst (call_step c s) :: l2) (snd (call_step c s)).
Proof.
  intros Hlen (Hev & Hpos & Hall).
  pose proof (stored_le_length l1) as Hst1.
  pose proof (stored_le_length l2) as Hst2.
  rewrite length_app in Hlen. cbn [length] in Hlen.
  apply Forall_app in Hall. destruct Hall as [Hl1 Hc].
  inversion Hc as [|? ? Hc0 Hl2]; subst. clear Hc.
  rewrite stored_middle in Hev, Hpos, Hl1, Hl2, Hc0.
  assert (Hshift : forall n m l, (n <= m)%Z ->
            Forall (pending_ok n) l -> Forall (pending_ok m) l).
  { intros n m l Hnm. apply Forall_impl. intro c0. now apply pending_ok_mono. }
  unfold counter_inv. rewrite stored_middle.
  destruct c as [X v p]. unfold call_step. cbn [call_pc call_value].
  unfold pending_ok in Hc0. cbn [call_pc] in Hc0.
  destruct p as [|tmp| | | |];
    try destruct (Qltb v (bval s) && Qltb v big);
    cbn [fst snd at_pc past_store call_pc call_X call_value evals] in *;
    try rewrite wrap32_id by (unfold in_int32; lia);
    (split; [lia|]; split; [lia|]);
    (apply Forall_app; split;
     [eapply Hshift; [|exact Hl1]; lia
     |constructor;
      [unfold pending_ok; cbn [call_pc at_pc]; try exact I; lia
      |eapply Hshift; [|exact Hl2]; lia]]).
Qed.

Lemma interleave_counter (sched : list nat) :
  forall cs s,
    (Z.of_nat (length cs) < 2 ^ 31)%Z ->
    counter_inv cs s ->
    counter_inv (fst (interleave sched cs s)) (snd (interleave sched cs s)) /\
    length (fst (interleave sched cs s)) = length cs.
Proof.
  induction sched as [|i sched IH]; intros cs s Hlen Hinv; [now split|].
  cbn [interleave]. destruct (nth_error cs i) as [c|] eqn:E;
    [|now apply IH].
  apply nth_error_split in E. destruct E as (l1 & l2 & Ecs & Hi). subst cs i.
  pose proof (call_step_counter l1 l2 c s Hlen Hinv) as Hstep.
  destruct (call_step c s) as [c' s']. cbn [fst snd] in Hstep.
  rewrite set_nth_middle.
  assert (Hlen' : length (l1 ++ c' :: l2) = length (l1 ++ c :: l2))
    by (rewrite !length_app; reflexivity).
  destruct (IH (l1 ++ c' :: l2) s') as [H1 H2];
    [now rewrite Hlen' | exact Hstep|].
  split; [exact H1 | now rewrite H2].
Qed.

(** X11. Overlapping calls never count twice.  Whatever the order of their
    accesses, when fewer than [2^31] calls start from [evals = 0] and all
    have returned, [evals] is at least one and at most the number of
    calls. *)
Theorem evals_never_overcounts (sched : list nat) (cs : list call)
    (s : shared) :
  Forall (fun c => call_pc c = AtLoad) cs ->
  evals s = 0%Z ->
  (Z.of_nat (length cs) < 2 ^ 31)%Z ->
  cs <> [] ->
  Forall (fun c => call_pc c = AtReturn) (fst (interleave sched cs s)) ->
  (1 <= evals (snd (interleave sched cs s)) <= Z.of_nat (length cs))%Z.
Proof.
  intros Hload Hev Hlen Hne Hret.
  assert (H0 : stored cs = 0%Z).
  { unfold stored. replace (filter past_store cs) with (@nil call);
      [reflexivity|].
    symmetry. clear -Hload. induction Hload as [|c cs Hc _ IH]; [reflexivity|].
    cbn [filter]. unfold past_store. now rewrite Hc. }
  assert (Hinv : counter_inv cs s).
  { unfold counter_inv. rewrite H0, Hev. repeat split; try lia.
    eapply Forall_impl; [|exact Hload].
    intros c Hc. unfold pending_ok. now rewrite Hc. }
  destruct (interleave_counter sched cs s Hlen Hinv) as [(He & Hpos & _) Hl].
  assert (Hall : stored (fst (interleave sched cs s)) = Z.of_nat (length cs)).
  { rewrite <- Hl. unfold stored. f_equal. f_equal.
    clear -Hret. induction Hret as [|c l Hc _ IH]; [reflexivity|].
    cbn [filter].
    replace (past_store c) with true by (unfold past_store; now rewrite Hc).
    now rewrite IH. }
  rewrite Hall in *.
  assert (0 < Z.of_nat (length cs))%Z by (destruct cs; [congruence | cbn; lia]).
  lia.
Qed.

(** [evals_never_overcounts] at two calls whose accesses alternate. *)
Lemma evals_never_overcounts_witness :
  (1 <= evals (snd (interleave [0; 1; 0; 1; 0; 0; 0; 1; 1; 1]%nat
                      (@begin_calls hold_integrator [scenario_A; [1%Q]])
                      shared_init))
   <= 2)%Z.
Proof.
  apply (evals_never_overcounts [0; 1; 0; 1; 0; 0; 0; 1; 1; 1]%nat
           (@begin_calls hold_integrator [scenario_A; [1]]) shared_init).
  - vm_compute. repeat constructor.
  - reflexivity.
  - vm_compute. reflexivity.
  - vm_compute. discriminate.
  - vm_compute. repeat constructor.
Defined.

(** X14. Any two overlapping calls can lose an increment.  When both load
    [evals] before either stores, both return and [evals] has advanced by
    one only, whatever their values and the shared state. *)
Theorem increment_lost (c1 c2 : call) (s : shared) :
  call_pc c1 = AtLoad -> call_pc c2 = AtLoad ->
  let r := interleave [0; 1; 0; 1; 0; 0; 0; 1; 1; 1]%nat [c1; c2] s in
  map call_pc (fst r) = [AtReturn; AtReturn] /\
  evals (snd r) = wrap32 (evals s + 1).
Proof.
  intros H1 H2. destruct c1 as [X1 v1 p1], c2 as [X2 v2 p2], s as [bv ev lg].
  cbn in H1, H2. subst p1 p2. cbv zeta.
  cbn [interleave nth_error call_step call_pc call_value call_X at_pc set_nth
       bval evals log fst snd].
  destruct (Qltb v1 bv && Qltb v1 big);
    cbn [interleave nth_error call_step call_pc call_value call_X at_pc
         set_nth bval evals log fst snd];
    match goal with
    | |- context [Qltb v2 ?b && Qltb v2 big] =>
        destruct (Qltb v2 b && Qltb v2 big)
    end;
    cbn [interleave nth_error call_step call_pc call_value call_X at_pc
         set_nth bval evals log fst snd map];
    split; reflexivity.
Qed.

(** [increment_lost] at two evaluations of scenario A. *)
Lemma increment_lost_witness :
  evals (snd (interleave [0; 1; 0; 1; 0; 0; 0; 1; 1; 1]%nat
                [{| call_X := scenario_A; call_value := - (10); call_pc := AtLoad |};
                 {| call_X := scenario_A; call_value := - (10); call_pc := AtLoad |}]
                shared_init))
  = wrap32 (0 + 1).
Proof.
  apply (increment_lost
           {| call_X := scenario_A; call_value := - (10); call_pc := AtLoad |}
           {| call_X := scenario_A; call_value := - (10); call_pc := AtLoad |}
           shared_init); reflexivity.
Defined.

(** X12. Overlapping calls can leave [bval] above the best value.  When a
    call passes the test of line 78 and a call with a lower value then
    runs lines 77-81 before the first one stores its value, both return
    and [bval] is the higher of the two values. *)
Theorem best_value_overwritten (c1 c2 : call) (s : shared) :
  call_pc c1 = AtLoad -> call_pc c2 = AtLoad ->
  call_value c1 < call_value c2 ->
  call_value c2 < bval s -> call_value c2 < big ->
  let r := interleave [1; 1; 1; 0; 0; 0; 0; 0; 1; 1]%nat [c1; c2] s in
  map call_pc (fst r) = [AtReturn; AtReturn] /\
  bval (snd r) = call_value c2 /\
  call_value c1 < bval (snd r).
Proof.
  intros H1 H2 H12 Hb Hbig.
  destruct c1 as [X1 v1 p1], c2 as [X2 v2 p2], s as [bv ev lg].
  cbn [call_pc call_value bval] in *. subst p1 p2. cbv zeta.
  assert (E2 : Qltb v2 bv && Qltb v2 big = true).
  { apply andb_true_intro. split; now apply Qltb_true. }
  assert (E1 : Qltb v1 bv && Qltb v1 big = true).
  { apply andb_true_intro. split; apply Qltb_true; lra. }
  cbn [interleave nth_error call_step call_pc call_value call_X at_pc set_nth
       bval evals log fst snd].
  rewrite E2.
  cbn [interleave nth_error call_step call_pc call_value call_X at_pc set_nth
       bval evals log fst snd].
  rewrite E1.
  cbn [interleave nth_error call_step call_pc call_value call_X at_pc set_nth
       bval evals log fst snd map].
  split; [reflexivity|]. split; [reflexivity | exact H12].
Qed.

(** [best_value_overwritten] at values [-10] and [-5] from the initial
    state: [bval] ends at [-5]. *)
Lemma best_value_overwritten_witness :
  bval (snd (interleave [1; 1; 1; 0; 0; 0; 0; 0; 1; 1]%nat
               [{| call_X := [1]; call_value := - (10); call_pc := AtLoad |};
                {| call_X := []; call_value := - (5); call_pc := AtLoad |}]
               shared_init))
  = - (5).
Proof.
  apply (best_value_overwritten
           {| call_X := [1]; call_value := - (10); call_pc := AtLoad |}
           {| call_X := []; call_value := - (5); call_pc := AtLoad |}
           shared_init); try reflexivity.
Defined.
